(** * GSuite mailing-list synchronisation (website/mailinglists/gsuite.py)

    A shallow embedding of the directory-group synchroniser and the
    properties of it that the specification states.  The Python code talks
    to the Google directory API; here every [execute()] of a request is a
    step of a state-and-exception monad over a remote service that is a
    parameter of the development, and the sequence of executed requests is
    recorded in a trace.

    Properties of the calls a pass makes are proved for every service.  Two
    services are defined to run the program on: a scripted one, which plays
    back given replies, and a directory that keeps groups with their members
    and aliases, on which the two-pass property is proved. *)

From stdpp Require Import base strings list gmap.
From Stdlib Require Import QArith.

Set Warnings "-clear-no-such-hyp".

Local Close Scope Q_scope.
Local Open Scope string_scope.
Local Open Scope list_scope.

(** ** Data model *)

(** [class GroupData]: the desired state of one group. *)
Record GroupData := mkGroupData {
  moderated : bool;
  archived : bool;
  prefix : string;
  name : string;
  description : string;
  aliases : list string;
  addresses : list string
}.

(** [GroupData.__init__] with its default arguments. *)
Definition GroupData_init (name description : string) : GroupData :=
  mkGroupData false false "" name description [] [].

(** The [body] dictionary of [groups().insert] and [groups().update]. *)
Record GroupBody := mkGroupBody {
  body_email : string;
  body_name : string;
  body_description : string
}.

(** A request object built by the directory API client.  Building a request
    does not contact the service: only [execute] does. *)
Inductive Request :=
| groups_insert (body : GroupBody)
| groups_update (groupKey : string) (body : GroupBody)
| groups_delete (groupKey : string)
| groups_list (domain : string) (pageToken : option string)
| aliases_list (groupKey : string)
| aliases_delete (groupKey alias : string)
| aliases_insert (groupKey alias : string)
| members_list (groupKey : string) (pageToken : option string)
| members_delete (groupKey memberKey : string)
| members_insert (groupKey email role : string).

(** Entries of the listings the service returns. *)
Record GroupResource := mkGroupResource { g_id : string; g_name : string }.
Record MemberResource := mkMemberResource { m_email : string; m_role : string }.
Record AliasResource := mkAliasResource { a_alias : string; a_primaryEmail : string }.

(** A response dictionary.  A key that is absent reads as the empty list,
    as in [response.get('groups', [])]; [nextPageToken] is present or not. *)
Record Response := mkResponse {
  resp_groups : list GroupResource;
  resp_members : list MemberResource;
  resp_aliases : list AliasResource;
  nextPageToken : option string
}.

Definition empty_response : Response := mkResponse [] [] [] None.

(** [googleapiclient.errors.HttpError], carrying the status of the reply. *)
Record HttpError := mkHttpError { status : nat }.

Inductive Reply :=
| Ok (resp : Response)
| Failed (err : HttpError).

(** What the outside world observes of a run. *)
Inductive Event :=
| Executed (r : Request) (rep : Reply)
| Slept (seconds : Q).

(** ** The monad: remote state, trace, exceptions *)

Record World (Remote : Type) := mkWorld {
  remote : Remote;
  trace : list Event
}.
Arguments mkWorld {Remote} _ _.
Arguments remote {Remote} _.
Arguments trace {Remote} _.

(** How a call ends: it returns, an [HttpError] propagates out of it, or the
    fuel given to a [while] loop ran out. *)
Inductive Outcome (A : Type) :=
| Returns (a : A)
| Raises (err : HttpError)
| Exhausted.
Arguments Returns {A} _.
Arguments Raises {A} _.
Arguments Exhausted {A}.

Definition M (Remote A : Type) : Type := World Remote → Outcome A * World Remote.

Definition ret {Remote A} (a : A) : M Remote A := λ w, (Returns a, w).

Definition bind {Remote A B} (k : A → M Remote B) (m : M Remote A) : M Remote B :=
  λ w, match m w with
       | (Returns a, w') => k a w'
       | (Raises e, w') => (Raises e, w')
       | (Exhausted, w') => (Exhausted, w')
       end.

#[global] Instance M_ret {Remote} : MRet (M Remote) := @ret Remote.
#[global] Instance M_bind {Remote} : MBind (M Remote) := @bind Remote.

(** [try: m  except HttpError: h] *)
Definition try_except {Remote A} (m : M Remote A) (h : HttpError → M Remote A) : M Remote A :=
  λ w, match m w with
       | (Raises e, w') => h e w'
       | r => r
       end.

Definition out_of_fuel {Remote A} : M Remote A := λ w, (Exhausted, w).

(** [for x in xs: body(x)] *)
Fixpoint for_each {Remote X} (xs : list X) (body : X → M Remote unit) : M Remote unit :=
  match xs with
  | [] => ret tt
  | x :: xs' => body x;; for_each xs' body
  end.

(** ** Two remote services to run the program against *)

(** A scripted service: it answers the calls with the replies of a script,
    in order, whatever the request is; once the script is used up every call
    fails. *)
Definition script_serve (r : Request) (script : list Reply) : Reply * list Reply :=
  match script with
  | [] => (Failed (mkHttpError 503), [])
  | rep :: script' => (rep, script')
  end.

(** A directory that keeps groups with their members and aliases, keyed by
    the group's address.  A group's members and aliases are sets: inserting
    one that is there is a conflict, deleting one that is not is an error,
    and so is any request for a group that does not exist.  A listing shows
    everything on one page.  [dir_outage] tells on which requests the
    transport fails. *)
Record RemoteGroup := mkRemoteGroup {
  rg_name : string;
  rg_description : string;
  rg_members : gset string;
  rg_aliases : gset string
}.

Record Directory := mkDirectory {
  dir_groups : gmap string RemoteGroup;
  dir_outage : Request → bool
}.

Definition not_found : HttpError := mkHttpError 404.
Definition conflict : HttpError := mkHttpError 409.
Definition unavailable : HttpError := mkHttpError 503.

Definition set_members (rg : RemoteGroup) (ms : gset string) : RemoteGroup :=
  mkRemoteGroup (rg_name rg) (rg_description rg) ms (rg_aliases rg).
Definition set_aliases (rg : RemoteGroup) (al : gset string) : RemoteGroup :=
  mkRemoteGroup (rg_name rg) (rg_description rg) (rg_members rg) al.

Definition groups_page (gs : gmap string RemoteGroup) : Response :=
  mkResponse ((λ kg, mkGroupResource kg.1 (rg_name kg.2)) <$> map_to_list gs) [] [] None.
Definition members_page (rg : RemoteGroup) : Response :=
  mkResponse [] ((λ m, mkMemberResource m "MEMBER") <$> elements (rg_members rg)) [] None.
Definition aliases_page (key : string) (rg : RemoteGroup) : Response :=
  mkResponse [] [] ((λ a, mkAliasResource a key) <$> elements (rg_aliases rg)) None.

(** A request for the group at [key]: an error when there is no such group,
    otherwise what [f] makes of the group. *)
Definition with_group (key : string) (gs : gmap string RemoteGroup)
    (f : RemoteGroup → HttpError + Response * RemoteGroup)
    : HttpError + Response * gmap string RemoteGroup :=
  match gs !! key with
  | None => inl not_found
  | Some rg =>
      match f rg with
      | inl e => inl e
      | inr (resp, rg') => inr (resp, <[key := rg']> gs)
      end
  end.

(** The answer of the directory when the transport works: an error, or a
    response and the groups as the request leaves them. *)
Definition dir_answer (r : Request) (gs : gmap string RemoteGroup)
    : HttpError + Response * gmap string RemoteGroup :=
  match r with
  | groups_insert body =>
      match gs !! body_email body with
      | Some _ => inl conflict
      | None =>
          inr (empty_response,
               <[body_email body :=
                   mkRemoteGroup (body_name body) (body_description body) ∅ ∅]> gs)
      end
  | groups_update key body =>
      match gs !! key with
      | None => inl not_found
      | Some rg =>
          inr (empty_response,
               <[body_email body :=
                   mkRemoteGroup (body_name body) (body_description body)
                                 (rg_members rg) (rg_aliases rg)]> (delete key gs))
      end
  | groups_delete key =>
      match gs !! key with
      | None => inl not_found
      | Some _ => inr (empty_response, delete key gs)
      end
  | groups_list _ _ => inr (groups_page gs, gs)
  | aliases_list key =>
      with_group key gs (λ rg, inr (aliases_page key rg, rg))
  | aliases_delete key a =>
      with_group key gs (λ rg,
        if decide (a ∈ rg_aliases rg)
        then inr (empty_response, set_aliases rg (rg_aliases rg ∖ {[a]}))
        else inl not_found)
  | aliases_insert key a =>
      with_group key gs (λ rg,
        if decide (a ∈ rg_aliases rg) then inl conflict
        else inr (empty_response, set_aliases rg (rg_aliases rg ∪ {[a]})))
  | members_list key _ =>
      with_group key gs (λ rg, inr (members_page rg, rg))
  | members_delete key m =>
      with_group key gs (λ rg,
        if decide (m ∈ rg_members rg)
        then inr (empty_response, set_members rg (rg_members rg ∖ {[m]}))
        else inl not_found)
  | members_insert key m _ =>
      with_group key gs (λ rg,
        if decide (m ∈ rg_members rg) then inl conflict
        else inr (empty_response, set_members rg (rg_members rg ∪ {[m]})))
  end.

Definition dir_serve (r : Request) (d : Directory) : Reply * Directory :=
  if dir_outage d r then (Failed unavailable, d)
  else match dir_answer r (dir_groups d) with
       | inl e => (Failed e, d)
       | inr (resp, gs) => (Ok resp, mkDirectory gs (dir_outage d))
       end.

(** A group of that name is in the directory. *)
Definition listed (n : string) (gs : gmap string RemoteGroup) : Prop :=
  ∃ key rg, gs !! key = Some rg ∧ rg_name rg = n.

Definition no_outage : Request → bool := λ _, false.

(** ** Scenarios *)

Definition group_B : GroupData :=
  mkGroupData false false "" "B" "list B" [] ["ann@example.org"].
Definition group_C : GroupData :=
  mkGroupData false false "" "C" "list C" ["c-alias"] ["bob@example.org"].

(** Two wanted groups of the same name that want different members. *)
Definition group_B_ann : GroupData :=
  mkGroupData false false "" "B" "list B" [] ["ann@example.org"].
Definition group_B_bob : GroupData :=
  mkGroupData false false "" "B" "list B" [] ["bob@example.org"].

(** A directory that has the groups A and B. *)
Definition directory_AB : Directory :=
  mkDirectory
    (<["A@example.org" := mkRemoteGroup "A" "old A" {["ann@example.org"]} ∅]>
       (<["B@example.org" := mkRemoteGroup "B" "old B" {["ann@example.org"]} ∅]> ∅))
    no_outage.

(** Outages of the transport on one kind of request. *)
Definition insert_outage (r : Request) : bool :=
  match r with groups_insert _ => true | _ => false end.
Definition alias_listing_outage (r : Request) : bool :=
  match r with aliases_list _ => true | _ => false end.
Definition member_listing_outage (r : Request) : bool :=
  match r with members_list _ _ => true | _ => false end.

(** Two pages of group names, of members and of aliases. *)
Definition page (names : list string) (token : option string) : Response :=
  mkResponse ((λ n, mkGroupResource n n) <$> names)
             ((λ n, mkMemberResource n "MEMBER") <$> names)
             ((λ n, mkAliasResource n n) <$> names) token.

(** ** Reading a trace *)

Definition request_of (ev : Event) : option Request :=
  match ev with
  | Executed r _ => Some r
  | Slept _ => None
  end.

(** The requests that were executed, in order. *)
Definition requests (evs : list Event) : list Request := omap request_of evs.

(** The group a request addresses; a listing of the groups addresses none. *)
Definition target (r : Request) : option string :=
  match r with
  | groups_insert body => Some (body_email body)
  | groups_update key _ | groups_delete key => Some key
  | groups_list _ _ => None
  | aliases_list key | aliases_delete key _ | aliases_insert key _ => Some key
  | members_list key _ | members_delete key _ | members_insert key _ _ => Some key
  end.

(** A request that changes the directory by adding or removing something. *)
Definition adds_or_removes (r : Request) : bool :=
  match r with
  | groups_insert _ | groups_delete _
  | aliases_insert _ _ | aliases_delete _ _
  | members_insert _ _ _ | members_delete _ _ => true
  | _ => false
  end.

Definition succeeded (ev : Event) : Prop :=
  match ev with
  | Executed _ (Failed _) => False
  | _ => True
  end.

(** An event that adds nothing to the directory and removes nothing. *)
Definition silent (ev : Event) : Prop :=
  match ev with
  | Executed r _ => adds_or_removes r = false
  | Slept _ => True
  end.

(** Event [ev] is the execution of a request that satisfies [P]; sleeping
    counts as none. *)
Definition executes (P : Request → Prop) (ev : Event) : Prop :=
  match ev with
  | Executed r _ => P r
  | Slept _ => False
  end.

(** Event [ev] executes no request, or one that satisfies [P]. *)
Definition only_executes (P : Request → Prop) (ev : Event) : Prop :=
  match ev with
  | Executed r _ => P r
  | Slept _ => True
  end.

Definition is_groups_list (r : Request) : Prop :=
  match r with groups_list _ _ => True | _ => False end.
Definition is_members_list (key : string) (r : Request) : Prop :=
  match r with members_list k _ => k = key | _ => False end.
Definition is_groups_delete (r : Request) : Prop :=
  match r with groups_delete _ => True | _ => False end.
Definition is_groups_update (r : Request) : Prop :=
  match r with groups_update _ _ => True | _ => False end.

(** [m] lets an [HttpError] out only right after the failed execution of a
    request that satisfies [P]: that failure is the last event of the run. *)
Definition raises_only_on {Remote A} (P : Request → Prop) (m : M Remote A) : Prop :=
  ∀ w e w', m w = (Raises e, w') →
            ∃ tr r, trace w' = tr ++ [Executed r (Failed e)] ∧ P r.

Definition is_alias_request (key : string) (r : Request) : Prop :=
  match r with
  | aliases_list k | aliases_delete k _ | aliases_insert k _ => k = key
  | _ => False
  end.
Definition is_member_request (key : string) (r : Request) : Prop :=
  match r with
  | members_list k _ | members_delete k _ | members_insert k _ _ => k = key
  | _ => False
  end.

(** ** The program *)

(** The two comprehensions that compare what exists with what is wanted,
    [[x for x in existing if x not in new]] and
    [[x for x in new if x not in existing]]; the same pair is computed for
    groups, members and aliases. *)
Definition remove_list_of (existing new : list string) : list string :=
  filter (λ x, x ∉ new) existing.
Definition insert_list_of (existing new : list string) : list string :=
  filter (λ x, x ∉ existing) new.

Section Gsuite.
Context {Remote : Type}.

(** The directory service: how it answers a request and how the request
    changes it. *)
Variable serve : Request → Remote → Reply * Remote.

(** [settings.GSUITE_DOMAIN] *)
Variable GSUITE_DOMAIN : string.

(** The lists [sync_mailinglists] assembles when it is given none: the
    stored mailing lists followed by the automatic lists, each converted
    to a [GroupData]. *)
Variable assembled_lists : list GroupData.

Abbreviation Prog := (M Remote).

(** [request.execute()] *)
Definition execute (r : Request) : Prog Response :=
  λ w, let '(rep, rem) := serve r (remote w) in
       let w' := mkWorld rem (trace w ++ [Executed r rep]) in
       match rep with
       | Ok resp => (Returns resp, w')
       | Failed e => (Raises e, w')
       end.

(** [time.sleep] *)
Definition sleep (seconds : Q) : Prog unit :=
  λ w, (Returns tt, mkWorld (remote w) (trace w ++ [Slept seconds])).

(** [f'{name}@{settings.GSUITE_DOMAIN}'] *)
Definition at_domain (n : string) : string := n ++ "@" ++ GSUITE_DOMAIN.

Definition group_body (group : GroupData) : GroupBody :=
  mkGroupBody (at_domain (name group)) (name group) (description group).

(** The loop [while 'nextPageToken' in response: ...] of the two paginated
    listings: [next] builds the request for a page token, [items] reads the
    listed entries of a response. *)
Fixpoint while_nextPageToken {X} (fuel : nat) (next : string → Request)
    (items : Response → list X) (response : Response) (acc : list X) : Prog (list X) :=
  match nextPageToken response with
  | None => ret acc
  | Some token =>
      match fuel with
      | O => out_of_fuel
      | S fuel' =>
          response' ← execute (next token);
          while_nextPageToken fuel' next items response' (acc ++ items response')
      end
  end.

(** The body of the [try] in [update_group_members] (lines 125-136). *)
Definition list_members (fuel : nat) (group : GroupData) : Prog (list string) :=
  members_response ← execute (members_list (at_domain (name group)) None);
  members_list ← while_nextPageToken fuel
      (λ token, members_list (at_domain (name group)) (Some token))
      resp_members members_response (resp_members members_response);
  ret (m_email <$> members_list).

(** [update_group_members]: the [try] around the listing returns from the
    function on [HttpError]; every delete and insert is tried on its own. *)
Definition update_group_members (fuel : nat) (group : GroupData) : Prog unit :=
  fetched ← try_except (existing_members ← list_members fuel group;
                        ret (Some existing_members))
                       (λ _, ret None);
  match fetched with
  | None => ret tt
  | Some existing_members =>
      let new_members := addresses group in
      let remove_list := remove_list_of existing_members new_members in
      let insert_list := insert_list_of existing_members new_members in
      for_each remove_list (λ remove_member,
        try_except
          (execute (members_delete (at_domain (name group)) remove_member);; ret tt)
          (λ _, ret tt));;
      for_each insert_list (λ insert_member,
        try_except
          (execute (members_insert (at_domain (name group)) insert_member "MEMBER");; ret tt)
          (λ _, ret tt))
  end.

(** The listing of [update_group_aliases] (lines 74-79): one call, outside
    any [try], and no loop on a page token. *)
Definition list_aliases (group : GroupData) : Prog (list string) :=
  aliases_response ← execute (aliases_list (at_domain (name group)));
  ret (a_alias <$> resp_aliases aliases_response).

(** [update_group_aliases] *)
Definition update_group_aliases (group : GroupData) : Prog unit :=
  existing_aliases ← list_aliases group;
  let new_aliases := at_domain <$> aliases group in
  let remove_list := remove_list_of existing_aliases new_aliases in
  let insert_list := insert_list_of existing_aliases new_aliases in
  for_each remove_list (λ remove_alias,
    try_except
      (execute (aliases_delete (at_domain (name group)) remove_alias);; ret tt)
      (λ _, ret tt));;
  for_each insert_list (λ insert_alias,
    try_except
      (execute (aliases_insert (at_domain (name group)) insert_alias);; ret tt)
      (λ _, ret tt)).

(** [create_group] *)
Definition create_group (fuel : nat) (group : GroupData) : Prog unit :=
  execute (groups_insert (group_body group));;
  sleep (1 # 2)%Q;;
  update_group_members fuel group.

(** [update_group]: the update request is built and dropped, [execute] is
    not called on it. *)
Definition update_group (fuel : nat) (old_name : string) (group : GroupData) : Prog unit :=
  let _request := groups_update (at_domain old_name) (group_body group) in
  update_group_aliases group;;
  update_group_members fuel group.

(** [delete_group] *)
Definition delete_group (group : GroupData) : Prog unit :=
  execute (groups_delete (at_domain (name group)));; ret tt.

(** The body of the [try] in [sync_mailinglists] (lines 208-218). *)
Definition list_groups (fuel : nat) : Prog (list string) :=
  groups_response ← execute (groups_list GSUITE_DOMAIN None);
  groups_list ← while_nextPageToken fuel
      (λ token, groups_list GSUITE_DOMAIN (Some token))
      resp_groups groups_response (resp_groups groups_response);
  ret (g_name <$> groups_list).

(** The body of the loop [for l in lists] of [sync_mailinglists]. *)
Definition sync_group (fuel : nat) (remove_list insert_list : list string)
    (l : GroupData) : Prog unit :=
  if decide (name l ∈ remove_list) then delete_group l
  else if decide (name l ∈ insert_list) then create_group fuel l
  else update_group fuel (name l) l.

(** [sync_mailinglists] *)
Definition sync_mailinglists (fuel : nat) (lists : option (list GroupData)) : Prog unit :=
  let lists := match lists with
               | None => assembled_lists
               | Some lists => lists
               end in
  fetched ← try_except (existing_groups ← list_groups fuel;
                        ret (Some existing_groups))
                       (λ _, ret None);
  match fetched with
  | None => ret tt
  | Some existing_groups =>
      let new_groups := name <$> lists in
      let remove_list := remove_list_of existing_groups new_groups in
      let insert_list := insert_list_of existing_groups new_groups in
      for_each lists (sync_group fuel remove_list insert_list)
  end.

(** ** What the two-pass argument speaks of *)

(** What a first pass that succeeded leaves for the wanted group [g], given
    the groups [before] it: the group is there with the wanted members; its
    aliases are the wanted ones when the group was there before, and none
    when the pass created it.  [il] is the list of names to insert. *)
Definition settled (il : list string) (before after : gmap string RemoteGroup)
    (g : GroupData) : Prop :=
  ∃ rg, after !! at_domain (name g) = Some rg ∧
        rg_members rg = list_to_set (addresses g) ∧
        match before !! at_domain (name g) with
        | Some _ => rg_aliases rg = list_to_set (at_domain <$> aliases g) ∧ name g ∉ il
        | None => rg_aliases rg = ∅ ∧ rg_name rg = name g
        end.

(** What the second pass relies on for the wanted group [g]: if the group is
    there, it has the wanted members, and the wanted aliases or, when the
    first pass created it, none. *)
Definition reconciled (before now : gmap string RemoteGroup) (g : GroupData) : Prop :=
  ∀ rg, now !! at_domain (name g) = Some rg →
        rg_members rg = list_to_set (addresses g) ∧
        match before !! at_domain (name g) with
        | Some _ => rg_aliases rg = list_to_set (at_domain <$> aliases g)
        | None => rg_aliases rg = ∅
        end.

(** An event of a second pass that adds or removes nothing, or adds a wanted
    alias to a group that was not in the directory [before] the first pass. *)
Definition quiet_second_pass (before : gmap string RemoteGroup) (lists : list GroupData)
    (ev : Event) : Prop :=
  match ev with
  | Executed r _ =>
      adds_or_removes r = true →
      ∃ g a, g ∈ lists ∧ a ∈ aliases g ∧
             r = aliases_insert (at_domain (name g)) (at_domain a) ∧
             before !! at_domain (name g) = None
  | Slept _ => True
  end.

(** ** What a run does to the world *)

(** [served rem evs rem']: the service, started in [rem], answered the
    executed requests of [evs] as recorded and ended in [rem']. *)
Inductive served : Remote → list Event → Remote → Prop :=
| served_nil rem : served rem [] rem
| served_executed rem r rep rem1 evs rem' :
    serve r rem = (rep, rem1) → served rem1 evs rem' →
    served rem (Executed r rep :: evs) rem'
| served_slept rem s evs rem' :
    served rem evs rem' → served rem (Slept s :: evs) rem'.

(** [extends Q w w']: [w'] is [w] after events that all satisfy [Q]. *)
Definition extends (Q : Event → Prop) (w w' : World Remote) : Prop :=
  ∃ evs, trace w' = trace w ++ evs ∧ Forall Q evs ∧ served (remote w) evs (remote w').

(** [emits Q m]: whatever the outcome, [m] only adds events that satisfy [Q]. *)
Definition emits {A} (Q : Event → Prop) (m : Prog A) : Prop :=
  ∀ w, extends Q w (m w).2.

(** [pages next r rem ps rem']: asked [r] and then the requests [next] builds
    from the page tokens, the service answers with the pages [ps], the last
    of which carries no token. *)
Inductive pages (next : string → Request) : Request → Remote → list Response → Remote → Prop :=
| pages_last r rem resp rem' :
    serve r rem = (Ok resp, rem') → nextPageToken resp = None →
    pages next r rem [resp] rem'
| pages_more r rem resp token rem1 ps rem' :
    serve r rem = (Ok resp, rem1) → nextPageToken resp = Some token →
    pages next (next token) rem1 ps rem' →
    pages next r rem (resp :: ps) rem'.

(** A request for the group at [key] that is neither the deletion nor the
    update of the group itself. *)
Definition within_group (key : string) (r : Request) : Prop :=
  target r = Some key ∧ ¬ is_groups_delete r ∧ ¬ is_groups_update r.

(** The requests one sync pass may execute for the wanted groups [lists]. *)
Definition allowed (lists : list GroupData) (r : Request) : Prop :=
  ¬ is_groups_delete r ∧ ¬ is_groups_update r ∧
  ∀ key, target r = Some key → ∃ g, g ∈ lists ∧ key = at_domain (name g).

(** The requests whose failure is not caught: the insertion of a wanted group
    and the listing of the aliases of a wanted group. *)
Definition unguarded (lists : list GroupData) (r : Request) : Prop :=
  ∃ g, g ∈ lists ∧
       (r = groups_insert (group_body g) ∨ r = aliases_list (at_domain (name g))).

Lemma served_app rem evs1 rem1 evs2 rem2 :
  served rem evs1 rem1 → served rem1 evs2 rem2 → served rem (evs1 ++ evs2) rem2.
Proof.
  induction 1 as [| ? ? ? ? ? ? Hs _ IH | ? ? ? ? _ IH]; intros H2; simpl.
  - exact H2.
  - econstructor; [exact Hs | exact (IH H2)].
  - constructor. exact (IH H2).
Qed.

Lemma extends_refl Q w : extends Q w w.
Proof. exists []. rewrite app_nil_r. repeat split; constructor. Qed.

Lemma extends_trans Q w1 w2 w3 : extends Q w1 w2 → extends Q w2 w3 → extends Q w1 w3.
Proof.
  intros (e1 & T1 & F1 & S1) (e2 & T2 & F2 & S2). exists (e1 ++ e2).
  split; [by rewrite T2, T1, app_assoc |].
  split; [by apply Forall_app | by eapply served_app].
Qed.

Lemma extends_mono (Q Q' : Event → Prop) w w' :
  (∀ ev, Q ev → Q' ev) → extends Q w w' → extends Q' w w'.
Proof.
  intros HQ (evs & T & F & S). exists evs. repeat split; try done.
  eapply Forall_impl; eauto.
Qed.

Lemma emits_mono {A} (Q Q' : Event → Prop) (m : Prog A) :
  (∀ ev, Q ev → Q' ev) → emits Q m → emits Q' m.
Proof. intros HQ Hm w. eapply extends_mono; eauto. Qed.

Lemma emits_ret {A} Q (a : A) : emits Q (mret a : Prog A).
Proof. intros w. apply extends_refl. Qed.

Lemma emits_out_of_fuel {A} Q : emits Q (out_of_fuel : Prog A).
Proof. intros w. apply extends_refl. Qed.

Lemma emits_bind {A B} Q (m : Prog A) (k : A → Prog B) :
  emits Q m → (∀ a, emits Q (k a)) → emits Q (m ≫= k).
Proof.
  intros Hm Hk w. specialize (Hm w). unfold mbind, M_bind, bind.
  destruct (m w) as [[a | e |] w1]; simpl in *; try done.
  eapply extends_trans; [exact Hm | apply Hk].
Qed.

Lemma emits_try_except {A} Q (m : Prog A) (h : HttpError → Prog A) :
  emits Q m → (∀ e, emits Q (h e)) → emits Q (try_except m h).
Proof.
  intros Hm Hh w. specialize (Hm w). unfold try_except.
  destruct (m w) as [[a | e |] w1]; simpl in *; try done.
  eapply extends_trans; [exact Hm | apply Hh].
Qed.

Lemma emits_for_each {X} Q (xs : list X) (body : X → Prog unit) :
  (∀ x, x ∈ xs → emits Q (body x)) → emits Q (for_each xs body).
Proof.
  induction xs as [| x xs IH]; intros Hb; simpl.
  - apply emits_ret.
  - apply emits_bind.
    + apply Hb. left.
    + intros _. apply IH. intros y Hy. apply Hb. by right.
Qed.

Lemma emits_execute (Q : Event → Prop) r :
  (∀ rep, Q (Executed r rep)) → emits Q (execute r).
Proof.
  intros HQ w. unfold execute. destruct (serve r (remote w)) as [rep rem] eqn:E.
  assert (extends Q w (mkWorld rem (trace w ++ [Executed r rep]))).
  { exists [Executed r rep]. repeat split; simpl; auto.
    econstructor; [exact E | constructor]. }
  by destruct rep.
Qed.

Lemma emits_sleep (Q : Event → Prop) s : Q (Slept s) → emits Q (sleep s).
Proof.
  intros HQ w. exists [Slept s]. repeat split; simpl; auto. repeat constructor.
Qed.

(** The rules above, applied until the calls of the program are reached. *)
Ltac emits_rules :=
  repeat match goal with
    | |- emits _ (mret _) => apply emits_ret
    | |- emits _ (ret _) => apply emits_ret
    | |- emits _ out_of_fuel => apply emits_out_of_fuel
    | |- emits _ (sleep _) => apply emits_sleep
    | |- emits _ (_ ≫= _) => apply emits_bind
    | |- emits _ (try_except _ _) => apply emits_try_except
    | |- emits _ (for_each _ _) => apply emits_for_each
    | |- emits _ (execute _) => apply emits_execute
    | |- ∀ _, _ => intro
    end.

Lemma emits_while_nextPageToken {X} (Q : Event → Prop) fuel next
    (items : Response → list X) response acc :
  (∀ token rep, Q (Executed (next token) rep)) →
  emits Q (while_nextPageToken fuel next items response acc).
Proof.
  intros HQ. revert response acc.
  induction fuel as [| fuel IH]; intros response acc; simpl;
    destruct (nextPageToken response); emits_rules; auto.
Qed.

Lemma emits_list_groups fuel : emits (executes is_groups_list) (list_groups fuel).
Proof.
  unfold list_groups. emits_rules; simpl; auto.
  apply emits_while_nextPageToken. by intros.
Qed.

Lemma emits_list_members fuel group :
  emits (executes (is_members_list (at_domain (name group)))) (list_members fuel group).
Proof.
  unfold list_members. emits_rules; simpl; auto.
  apply emits_while_nextPageToken. by intros.
Qed.

Lemma emits_update_group_members fuel group :
  emits (only_executes (within_group (at_domain (name group))))
        (update_group_members fuel group).
Proof.
  unfold update_group_members. emits_rules.
  - eapply emits_mono; [| apply emits_list_members].
    intros [r rep |]; simpl; [| done]. destruct r; simpl; try done.
    intros ->. unfold within_group. simpl. tauto.
  - destruct a as [existing_members |]; emits_rules;
      unfold within_group; simpl; tauto.
Qed.

Lemma emits_update_group_aliases group :
  emits (only_executes (within_group (at_domain (name group))))
        (update_group_aliases group).
Proof.
  unfold update_group_aliases, list_aliases.
  emits_rules; unfold within_group; simpl; tauto.
Qed.

Lemma emits_create_group fuel group :
  emits (only_executes (within_group (at_domain (name group))))
        (create_group fuel group).
Proof.
  unfold create_group. emits_rules; try apply emits_update_group_members;
    unfold within_group; simpl; tauto.
Qed.

Lemma emits_update_group fuel group :
  emits (only_executes (within_group (at_domain (name group))))
        (update_group fuel (name group) group).
Proof.
  unfold update_group. emits_rules.
  - apply emits_update_group_aliases.
  - apply emits_update_group_members.
Qed.

(** A wanted name is never in the list of names to remove. *)
Lemma wanted_not_removed existing (lists : list GroupData) l :
  l ∈ lists → name l ∉ remove_list_of existing (name <$> lists).
Proof.
  intros Hl Hin. apply list_elem_of_filter in Hin as [Hnot _].
  apply Hnot. by apply list_elem_of_fmap_2.
Qed.

Lemma within_group_allowed (lists : list GroupData) l ev :
  l ∈ lists →
  only_executes (within_group (at_domain (name l))) ev →
  only_executes (allowed lists) ev.
Proof.
  intros Hl. destruct ev as [r rep |]; simpl; [| done].
  intros (Ht & Hd & Hu). repeat split; try done.
  intros key Hk. exists l. split; [done | congruence].
Qed.

Lemma emits_sync_group fuel rl il l :
  name l ∉ rl →
  emits (only_executes (within_group (at_domain (name l)))) (sync_group fuel rl il l).
Proof.
  intros Hl. unfold sync_group. rewrite decide_False by done.
  destruct (decide _); [apply emits_create_group | apply emits_update_group].
Qed.

Lemma emits_sync_groups fuel rl il (todo lists : list GroupData) :
  (∀ l, l ∈ todo → l ∈ lists ∧ name l ∉ rl) →
  emits (only_executes (allowed lists)) (for_each todo (sync_group fuel rl il)).
Proof.
  intros Htodo. apply emits_for_each. intros l Hl.
  destruct (Htodo l Hl) as [Hin Hrl].
  eapply emits_mono; [| by apply emits_sync_group].
  intros ev. by apply within_group_allowed.
Qed.

Lemma emits_sync_mailinglists fuel lists :
  emits (only_executes (allowed (default assembled_lists lists)))
        (sync_mailinglists fuel lists).
Proof.
  unfold sync_mailinglists.
  replace (match lists with None => assembled_lists | Some l => l end)
    with (default assembled_lists lists) by (by destruct lists).
  emits_rules.
  - eapply emits_mono; [| apply emits_list_groups].
    intros [r rep |]; simpl; [| done]. destruct r; simpl; try done.
    intros _. repeat split; simpl; try tauto. intros key; discriminate.
  - destruct a as [existing_groups |]; [| apply emits_ret].
    apply emits_sync_groups. intros l Hl. split; [done |].
    by apply wanted_not_removed.
Qed.

(** ** Running the pieces *)

Lemma bind_returns {A B} (m : Prog A) (k : A → Prog B) w a w1 :
  m w = (Returns a, w1) → (m ≫= k) w = k a w1.
Proof. intros H. unfold mbind, M_bind, bind. by rewrite H. Qed.

Lemma bind_raises {A B} (m : Prog A) (k : A → Prog B) w e w1 :
  m w = (Raises e, w1) → (m ≫= k) w = (Raises e, w1).
Proof. intros H. unfold mbind, M_bind, bind. by rewrite H. Qed.

Lemma execute_ok r w resp rem :
  serve r (remote w) = (Ok resp, rem) →
  execute r w = (Returns resp, mkWorld rem (trace w ++ [Executed r (Ok resp)])).
Proof. intros H. unfold execute. by rewrite H. Qed.

Lemma execute_failed r w e rem :
  serve r (remote w) = (Failed e, rem) →
  execute r w = (Raises e, mkWorld rem (trace w ++ [Executed r (Failed e)])).
Proof. intros H. unfold execute. by rewrite H. Qed.

(** A loop whose body executes one request and ignores its failure always
    returns, having executed exactly one request per element, in order. *)
Lemma for_each_ignoring {X} (f : X → Request) (xs : list X) w :
  ∃ w' evs,
    for_each xs (λ x, try_except (execute (f x);; ret tt) (λ _, ret tt)) w
      = (Returns tt, w') ∧
    trace w' = trace w ++ evs ∧
    Forall2 (λ ev x, ∃ rep, ev = Executed (f x) rep) evs xs ∧
    served (remote w) evs (remote w').
Proof.
  revert w. induction xs as [| x xs IH]; intros w; simpl.
  - exists w, []. rewrite app_nil_r. repeat split; constructor.
  - set (w1 := mkWorld (serve (f x) (remote w)).2
                       (trace w ++ [Executed (f x) (serve (f x) (remote w)).1])).
    destruct (IH w1) as (w' & evs & Hrun & Htr & Hevs & Hsv).
    exists w', (Executed (f x) (serve (f x) (remote w)).1 :: evs).
    split; [| split; [| split]].
    + rewrite <- Hrun. unfold mbind, M_bind, bind, try_except, execute, ret, w1.
      destruct (serve (f x) (remote w)) as [[resp | e] rem]; reflexivity.
    + rewrite Htr. unfold w1. simpl. by rewrite <- app_assoc.
    + constructor; [by eexists | done].
    + econstructor; [| exact Hsv]. by destruct (serve (f x) (remote w)).
Qed.

Lemma remove_list_of_nil new : remove_list_of [] new = [].
Proof. reflexivity. Qed.

Lemma insert_list_of_nil new : insert_list_of [] new = new.
Proof.
  unfold insert_list_of. induction new as [| x new IH]; [done |].
  rewrite filter_cons. destruct (decide _) as [_ | Hn].
  - by rewrite IH.
  - destruct Hn. apply not_elem_of_nil.
Qed.

(** Following the page tokens collects the entries of every page. *)
Lemma while_nextPageToken_pages {X} next (items : Response → list X) r rem ps rem' :
  pages next r rem ps rem' →
  ∀ (fuel : nat) w acc, remote w = rem → (length ps ≤ S fuel)%nat →
  ∃ w', (response ← execute r;
         while_nextPageToken fuel next items response (acc ++ items response)) w
          = (Returns (acc ++ concat (items <$> ps)), w') ∧
        remote w' = rem'.
Proof.
  induction 1 as [r rem resp rem' Hs Hno | r rem resp token rem1 ps rem' Hs Htok Hps IH];
    intros fuel w acc Hw Hlen; subst rem.
  - eexists. erewrite bind_returns by (by apply execute_ok).
    destruct fuel; simpl; rewrite Hno, app_nil_r; split; reflexivity.
  - assert (∃ fuel', fuel = S fuel') as [fuel' ->].
    { destruct fuel; [| by eexists]. inversion Hps; subst; simpl in Hlen; lia. }
    erewrite bind_returns by (by apply execute_ok). simpl. rewrite Htok.
    destruct (IH fuel' (mkWorld rem1 (trace w ++ [Executed r (Ok resp)]))
                 (acc ++ items resp) eq_refl) as (w' & Hrun & Hrem).
    { simpl in Hlen. lia. }
    exists w'. split; [| done]. rewrite Hrun. by rewrite <- app_assoc.
Qed.

Lemma bind_ret {A B} (a : A) (k : A → Prog B) w : (ret a ≫= k) w = k a w.
Proof. reflexivity. Qed.

Lemma while_nextPageToken_done {X} fuel next (items : Response → list X) response acc :
  nextPageToken response = None →
  while_nextPageToken fuel next items response acc = ret acc.
Proof. intros H. destruct fuel; simpl; by rewrite H. Qed.

Lemma bind_assoc {A B C} (m : Prog A) (k : A → Prog B) (h : B → Prog C) w :
  (m ≫= (λ a, k a ≫= h)) w = ((m ≫= k) ≫= h) w.
Proof.
  unfold mbind, M_bind, bind. by destruct (m w) as [[a | e |] w1].
Qed.

Lemma list_groups_pages fuel w ps rem' :
  pages (λ token, groups_list GSUITE_DOMAIN (Some token))
        (groups_list GSUITE_DOMAIN None) (remote w) ps rem' →
  (length ps ≤ S fuel)%nat →
  ∃ w', list_groups fuel w = (Returns (g_name <$> concat (resp_groups <$> ps)), w') ∧
        remote w' = rem'.
Proof.
  intros Hps Hlen.
  destruct (while_nextPageToken_pages _ resp_groups _ _ _ _ Hps fuel w [] eq_refl Hlen)
    as (w' & Hrun & Hrem).
  exists w'. split; [| done]. unfold list_groups.
  rewrite bind_assoc. by erewrite bind_returns by exact Hrun.
Qed.

Lemma list_members_pages fuel group w ps rem' :
  pages (λ token, members_list (at_domain (name group)) (Some token))
        (members_list (at_domain (name group)) None) (remote w) ps rem' →
  (length ps ≤ S fuel)%nat →
  ∃ w', list_members fuel group w
          = (Returns (m_email <$> concat (resp_members <$> ps)), w') ∧
        remote w' = rem'.
Proof.
  intros Hps Hlen.
  destruct (while_nextPageToken_pages _ resp_members _ _ _ _ Hps fuel w [] eq_refl Hlen)
    as (w' & Hrun & Hrem).
  exists w'. split; [| done]. unfold list_members.
  rewrite bind_assoc. by erewrite bind_returns by exact Hrun.
Qed.

(** The two loops of a reconciliation, deletions then insertions, always
    return; they execute one request per element, in order. *)
Lemma reconcile_runs (del ins : string → Request) (rl il : list string) w :
  ∃ w1 w2 evs1 evs2,
    (for_each rl (λ x, try_except (execute (del x);; ret tt) (λ _, ret tt));;
     for_each il (λ x, try_except (execute (ins x);; ret tt) (λ _, ret tt))) w
      = (Returns tt, w2) ∧
    trace w2 = trace w ++ evs1 ++ evs2 ∧
    Forall2 (λ ev x, ∃ rep, ev = Executed (del x) rep) evs1 rl ∧
    Forall2 (λ ev x, ∃ rep, ev = Executed (ins x) rep) evs2 il ∧
    served (remote w) evs1 (remote w1) ∧ served (remote w1) evs2 (remote w2).
Proof.
  destruct (for_each_ignoring del rl w) as (w1 & evs1 & Hrun1 & Htr1 & Hev1 & Hsv1).
  destruct (for_each_ignoring ins il w1) as (w2 & evs2 & Hrun2 & Htr2 & Hev2 & Hsv2).
  exists w1, w2, evs1, evs2. repeat split; try done.
  - by erewrite bind_returns by exact Hrun1.
  - by rewrite Htr2, Htr1, app_assoc.
Qed.

(** The first iteration of a [for] loop: the loop goes on when the body
    returns, and ends with the body otherwise. *)
Lemma for_each_cons_inv {X} (x : X) xs (body : X → Prog unit) w o w1 :
  for_each (x :: xs) body w = (o, w1) →
  ∃ o' w', body x w = (o', w') ∧
    match o' with
    | Returns _ => for_each xs body w' = (o, w1)
    | Raises e => o = Raises e ∧ w1 = w'
    | Exhausted => o = Exhausted ∧ w1 = w'
    end.
Proof.
  simpl. unfold mbind, M_bind, bind.
  destruct (body x w) as [[[] | e |] w'] eqn:E; intros H.
  - by exists (Returns tt), w'.
  - exists (Raises e), w'. by injection H as <- <-.
  - exists Exhausted, w'. by injection H as <- <-.
Qed.

(** ** The claims that hold for every directory service *)

(** C4: when the enumeration of the remote groups raises [HttpError], on the
    first page or on a later one, [sync_mailinglists] returns normally, and
    all it has executed are the listing requests of that enumeration: no
    create, update, delete, member or alias call. *)
Theorem sync_abandoned_when_listing_groups_fails fuel lists w err w1 :
  list_groups fuel w = (Raises err, w1) →
  sync_mailinglists fuel lists w = (Returns tt, w1) ∧
  extends (executes is_groups_list) w w1.
Proof.
  intros Hfail. split.
  - unfold sync_mailinglists.
    rewrite (bind_returns _ _ w None w1); [reflexivity |].
    unfold try_except. by erewrite bind_raises by exact Hfail.
  - pose proof (emits_list_groups fuel w) as H. by rewrite Hfail in H.
Qed.

(** C5: when the listing of a group's members raises [HttpError],
    [update_group_members] returns normally having executed nothing but the
    listing requests (no member is inserted or deleted); what was done for
    the group before (its alias reconciliation when the group is updated,
    its insertion when it is created) stands, and the loop of
    [sync_mailinglists] goes on with the groups that follow. *)
Theorem members_listing_failure_skips_only_members fuel rl il g rest w w1 w2 err :
  name g ∉ rl →
  (if decide (name g ∈ il)
   then (execute (groups_insert (group_body g));; sleep (1 # 2)%Q) w = (Returns tt, w1)
   else update_group_aliases g w = (Returns tt, w1)) →
  list_members fuel g w1 = (Raises err, w2) →
  update_group_members fuel g w1 = (Returns tt, w2) ∧
  extends (executes (is_members_list (at_domain (name g)))) w1 w2 ∧
  sync_group fuel rl il g w = (Returns tt, w2) ∧
  for_each (g :: rest) (sync_group fuel rl il) w
    = for_each rest (sync_group fuel rl il) w2.
Proof.
  intros Hrl Hbefore Hfail.
  assert (update_group_members fuel g w1 = (Returns tt, w2)) as Hmem.
  { unfold update_group_members.
    rewrite (bind_returns _ _ w1 None w2); [reflexivity |].
    unfold try_except. by erewrite bind_raises by exact Hfail. }
  assert (sync_group fuel rl il g w = (Returns tt, w2)) as Hgroup.
  { unfold sync_group. rewrite decide_False by done.
    destruct (decide (name g ∈ il)).
    - unfold create_group. rewrite bind_assoc.
      by erewrite bind_returns by exact Hbefore.
    - unfold update_group. by erewrite bind_returns by exact Hbefore. }
  repeat split; try done.
  - pose proof (emits_list_members fuel g w1) as H. by rewrite Hfail in H.
  - simpl. by erewrite bind_returns by exact Hgroup.
Qed.

(** C6, as the code has it: the listing of the groups and the listing of a
    group's members follow the page tokens and return the entries of all
    the pages, in order, whatever pages the service serves (with fuel for
    as many pages); the listing of a group's aliases executes one request
    and returns the aliases of that one response, whether or not it carries a
    page token. *)
Theorem listings_follow_page_tokens fuel group w :
  (∀ ps rem',
     pages (λ token, groups_list GSUITE_DOMAIN (Some token))
           (groups_list GSUITE_DOMAIN None) (remote w) ps rem' →
     (length ps ≤ S fuel)%nat →
     ∃ w', list_groups fuel w = (Returns (g_name <$> concat (resp_groups <$> ps)), w') ∧
           remote w' = rem') ∧
  (∀ ps rem',
     pages (λ token, members_list (at_domain (name group)) (Some token))
           (members_list (at_domain (name group)) None) (remote w) ps rem' →
     (length ps ≤ S fuel)%nat →
     ∃ w', list_members fuel group w
             = (Returns (m_email <$> concat (resp_members <$> ps)), w') ∧
           remote w' = rem') ∧
  (∀ resp rem',
     serve (aliases_list (at_domain (name group))) (remote w) = (Ok resp, rem') →
     list_aliases group w
       = (Returns (a_alias <$> resp_aliases resp),
          mkWorld rem' (trace w ++ [Executed (aliases_list (at_domain (name group)))
                                             (Ok resp)]))).
Proof.
  split; [| split].
  - intros ps rem'. apply list_groups_pages.
  - intros ps rem'. apply list_members_pages.
  - intros resp rem' Hs. unfold list_aliases.
    by erewrite bind_returns by (by apply execute_ok).
Qed.

(** C8: a group that is wanted and whose name the remote listing does not
    have is created: the group is inserted, the program sleeps for the fixed
    half second, the members are listed, and as the listing shows no member,
    one member-insert request is executed per wanted address, in order, and
    nothing else: no member is deleted.  A failing member insert does not
    stop the ones that follow. *)
Theorem new_group_is_created_then_filled fuel existing (lists : list GroupData)
    g w resp rem1 w2 :
  g ∈ lists → name g ∉ existing →
  serve (groups_insert (group_body g)) (remote w) = (Ok resp, rem1) →
  list_members fuel g
    (mkWorld rem1 (trace w ++ [Executed (groups_insert (group_body g)) (Ok resp);
                               Slept (1 # 2)%Q]))
    = (Returns [], w2) →
  ∃ w3 listing inserts,
    sync_group fuel (remove_list_of existing (name <$> lists))
               (insert_list_of existing (name <$> lists)) g w = (Returns tt, w3) ∧
    trace w3 = trace w ++ [Executed (groups_insert (group_body g)) (Ok resp);
                           Slept (1 # 2)%Q] ++ listing ++ inserts ∧
    Forall (executes (is_members_list (at_domain (name g)))) listing ∧
    Forall2 (λ ev a, ∃ rep,
               ev = Executed (members_insert (at_domain (name g)) a "MEMBER") rep)
            inserts (addresses g).
Proof.
  intros Hg Hnew Hins Hlist.
  destruct (for_each_ignoring
              (λ a, members_insert (at_domain (name g)) a "MEMBER") (addresses g) w2)
    as (w3 & inserts & Hrun & Htr & Hevs & _).
  pose proof (emits_list_members fuel g
                (mkWorld rem1 (trace w ++ [Executed (groups_insert (group_body g)) (Ok resp);
                                           Slept (1 # 2)%Q]))) as Hlisting.
  rewrite Hlist in Hlisting. destruct Hlisting as (listing & Htr2 & Hall & _).
  simpl in Htr2.
  exists w3, listing, inserts. split; [| split; [| done]].
  - unfold sync_group.
    rewrite decide_False by (by apply wanted_not_removed).
    rewrite decide_True.
    2:{ apply list_elem_of_filter. split; [done | by apply list_elem_of_fmap_2]. }
    unfold create_group.
    erewrite bind_returns by (by apply execute_ok).
    erewrite bind_returns by reflexivity. simpl.
    rewrite <- app_assoc. simpl.
    unfold update_group_members.
    erewrite bind_returns.
    2:{ unfold try_except. by erewrite bind_returns by exact Hlist. }
    cbv beta iota. rewrite remove_list_of_nil, insert_list_of_nil.
    erewrite bind_returns by reflexivity. exact Hrun.
  - by rewrite Htr, Htr2, <- !app_assoc.
Qed.

(** ** Where an error can come out *)

Lemma raises_only_on_mono {A} (P P' : Request → Prop) (m : Prog A) :
  (∀ r, P r → P' r) → raises_only_on P m → raises_only_on P' m.
Proof.
  intros HP Hm w e w' Hrun. destruct (Hm w e w' Hrun) as (tr & r & Htr & Hr).
  exists tr, r. auto.
Qed.

Lemma raises_ret {A} P (a : A) : raises_only_on P (ret a : Prog A).
Proof. intros w e w' H. discriminate H. Qed.

Lemma raises_out_of_fuel {A} P : raises_only_on P (out_of_fuel : Prog A).
Proof. intros w e w' H. discriminate H. Qed.

Lemma raises_sleep P s : raises_only_on P (sleep s).
Proof. intros w e w' H. discriminate H. Qed.

Lemma raises_execute (P : Request → Prop) r : P r → raises_only_on P (execute r).
Proof.
  intros HP w e w'. unfold execute.
  destruct (serve r (remote w)) as [[resp | e'] rem]; [discriminate |].
  intros [= <- <-]. by exists (trace w), r.
Qed.

Lemma raises_bind {A B} P (m : Prog A) (k : A → Prog B) :
  raises_only_on P m → (∀ a, raises_only_on P (k a)) → raises_only_on P (m ≫= k).
Proof.
  intros Hm Hk w e w'. unfold mbind, M_bind, bind.
  destruct (m w) as [[a | e' |] w1] eqn:E.
  - apply Hk.
  - intros [= <- <-]. by eapply Hm.
  - discriminate.
Qed.

Lemma raises_try_except {A} P (m : Prog A) (h : HttpError → Prog A) :
  (∀ e, raises_only_on P (h e)) → raises_only_on P (try_except m h).
Proof.
  intros Hh w e w'. unfold try_except.
  destruct (m w) as [[a | e' |] w1]; [discriminate | apply Hh | discriminate].
Qed.

Lemma raises_for_each {X} P (xs : list X) (body : X → Prog unit) :
  (∀ x, x ∈ xs → raises_only_on P (body x)) → raises_only_on P (for_each xs body).
Proof.
  induction xs as [| x xs IH]; intros Hb; simpl.
  - apply raises_ret.
  - apply raises_bind; [apply Hb; left |].
    intros _. apply IH. intros y Hy. apply Hb. by right.
Qed.

Ltac raises_rules :=
  repeat match goal with
    | |- raises_only_on _ (mret _) => apply raises_ret
    | |- raises_only_on _ (ret _) => apply raises_ret
    | |- raises_only_on _ out_of_fuel => apply raises_out_of_fuel
    | |- raises_only_on _ (sleep _) => apply raises_sleep
    | |- raises_only_on _ (_ ≫= _) => apply raises_bind
    | |- raises_only_on _ (try_except _ _) => apply raises_try_except
    | |- raises_only_on _ (for_each _ _) => apply raises_for_each
    | |- raises_only_on _ (execute _) => apply raises_execute
    | |- ∀ _, _ => intro
    end.

Lemma raises_while_nextPageToken {X} (P : Request → Prop) fuel next
    (items : Response → list X) response acc :
  (∀ token, P (next token)) →
  raises_only_on P (while_nextPageToken fuel next items response acc).
Proof.
  intros HP. revert response acc.
  induction fuel as [| fuel IH]; intros response acc; simpl;
    destruct (nextPageToken response); raises_rules; auto.
Qed.

Lemma raises_update_group_members P fuel group :
  raises_only_on P (update_group_members fuel group).
Proof.
  unfold update_group_members. raises_rules.
  destruct a as [existing_members |]; raises_rules.
Qed.

Lemma raises_update_group fuel group :
  raises_only_on (λ r, r = aliases_list (at_domain (name group)))
                 (update_group fuel (name group) group).
Proof.
  unfold update_group, update_group_aliases, list_aliases. raises_rules; try done.
  apply raises_update_group_members.
Qed.

Lemma raises_create_group fuel group :
  raises_only_on (λ r, r = groups_insert (group_body group)) (create_group fuel group).
Proof.
  unfold create_group. raises_rules; try done. apply raises_update_group_members.
Qed.

Lemma raises_sync_group fuel rl il (lists : list GroupData) l :
  l ∈ lists → name l ∉ rl →
  raises_only_on (unguarded lists) (sync_group fuel rl il l).
Proof.
  intros Hl Hrl. unfold sync_group. rewrite decide_False by done.
  destruct (decide _).
  - eapply raises_only_on_mono; [| apply raises_create_group].
    intros r ->. exists l. auto.
  - eapply raises_only_on_mono; [| apply raises_update_group].
    intros r ->. exists l. auto.
Qed.

Lemma raises_sync_mailinglists fuel lists :
  raises_only_on (unguarded (default assembled_lists lists))
                 (sync_mailinglists fuel lists).
Proof.
  unfold sync_mailinglists.
  replace (match lists with None => assembled_lists | Some l => l end)
    with (default assembled_lists lists) by (by destruct lists).
  raises_rules. destruct a as [existing_groups |]; raises_rules.
  apply raises_sync_group; [done | by apply wanted_not_removed].
Qed.

(** ** More that holds for every directory service *)

(** X1: [update_group_members] never lets an [HttpError] out, whichever of
    its calls fail: the listing, any deletion, any insertion. *)
Theorem update_group_members_never_raises fuel group w e :
  (update_group_members fuel group w).1 ≠ Raises e.
Proof.
  destruct (update_group_members fuel group w) as [o w'] eqn:E. simpl. intros ->.
  by destruct (raises_update_group_members (λ _, False) fuel group w e w' E)
    as (_ & _ & _ & ?).
Qed.

(** X2: when [sync_mailinglists] lets an [HttpError] out, the last request it
    executed is the insertion of a wanted group or the listing of the aliases
    of a wanted group, and that request failed with this error.  No other
    failure reaches the caller. *)
Theorem sync_raises_only_on_unguarded_calls fuel lists w e w' :
  sync_mailinglists fuel lists w = (Raises e, w') →
  ∃ tr g, g ∈ default assembled_lists lists ∧
    (trace w' = tr ++ [Executed (groups_insert (group_body g)) (Failed e)] ∨
     trace w' = tr ++ [Executed (aliases_list (at_domain (name g))) (Failed e)]).
Proof.
  intros Hrun.
  destruct (raises_sync_mailinglists fuel lists w e w' Hrun)
    as (tr & r & Htr & g & Hg & [-> | ->]); exists tr, g; auto.
Qed.

End Gsuite.

Arguments extends {Remote} serve Q w w'.
Arguments served {Remote} serve _ _ _.

(** ** The comparison of what exists with what is wanted *)

Lemma remove_list_of_set (E D : list string) :
  list_to_set (remove_list_of E D) = (list_to_set E ∖ list_to_set D : gset string).
Proof.
  apply set_eq. intros x. unfold remove_list_of.
  rewrite elem_of_difference, !elem_of_list_to_set, list_elem_of_filter. tauto.
Qed.

Lemma insert_list_of_set (E D : list string) :
  list_to_set (insert_list_of E D) = (list_to_set D ∖ list_to_set E : gset string).
Proof.
  apply set_eq. intros x. unfold insert_list_of.
  rewrite elem_of_difference, !elem_of_list_to_set, list_elem_of_filter. tauto.
Qed.

Lemma remove_list_of_Permutation (E E' D D' : list string) :
  E ≡ₚ E' → D ≡ₚ D' → remove_list_of E' D' ≡ₚ remove_list_of E D.
Proof.
  intros HE HD. unfold remove_list_of. rewrite <- HE.
  erewrite list_filter_iff; [reflexivity |].
  intros x. simpl. by rewrite HD.
Qed.

(** C3: the two lists computed from the existing keys [E] and the wanted
    keys [D] are, as sets, [E ∖ D] and [D ∖ E]; they have no element in
    common; and listing [E] and [D] in another order only reorders the two
    results.  (The computation is a function of the two lists alone, defined
    on all of them.) *)
Theorem diff_is_set_difference (E D E' D' : list string) :
  E ≡ₚ E' → D ≡ₚ D' →
  list_to_set (remove_list_of E D) = (list_to_set E ∖ list_to_set D : gset string) ∧
  list_to_set (insert_list_of E D) = (list_to_set D ∖ list_to_set E : gset string) ∧
  (list_to_set (remove_list_of E D) ∩ list_to_set (insert_list_of E D) : gset string) = ∅ ∧
  remove_list_of E' D' ≡ₚ remove_list_of E D ∧
  insert_list_of E' D' ≡ₚ insert_list_of E D.
Proof.
  intros HE HD. rewrite remove_list_of_set, insert_list_of_set.
  split; [done |]. split; [done |]. split; [| split].
  - apply set_eq. intros x.
    rewrite elem_of_intersection, !elem_of_difference, elem_of_empty. tauto.
  - by apply remove_list_of_Permutation.
  - by apply (remove_list_of_Permutation D D' E E').
Qed.

(** The comparison on three existing and three wanted keys, in two orders. *)
Lemma diff_is_set_difference_witness :
  remove_list_of ["a"; "b"; "c"] ["c"; "d"; "b"] = ["a"] ∧
  insert_list_of ["a"; "b"; "c"] ["c"; "d"; "b"] = ["d"] ∧
  remove_list_of ["c"; "a"; "b"] ["d"; "b"; "c"] ≡ₚ remove_list_of ["a"; "b"; "c"] ["c"; "d"; "b"].
Proof.
  split; [vm_compute; reflexivity |]. split; [vm_compute; reflexivity |].
  refine (proj1 (proj2 (proj2 (proj2
    (diff_is_set_difference ["a"; "b"; "c"] ["c"; "d"; "b"]
                            ["c"; "a"; "b"] ["d"; "b"; "c"] _ _))))).
  - change ([ "a"; "b"; "c" ] ≡ₚ [ "c" ] ++ [ "a"; "b" ]).
    apply (Permutation_app_comm [ "a"; "b" ] [ "c" ]).
  - change ([ "c" ] ++ [ "d"; "b" ] ≡ₚ [ "d"; "b" ] ++ [ "c" ]).
    apply Permutation_app_comm.
Defined.

(** ** Groups that are not wanted *)

(** In the directory, a request other than a group update touches the group
    it addresses and no other. *)
Lemma with_group_untouched k gs f resp gs' key :
  with_group k gs f = inr (resp, gs') → k ≠ key → gs' !! key = gs !! key.
Proof.
  unfold with_group. intros H Hk.
  destruct (gs !! k) as [rg |]; [| done].
  destruct (f rg) as [e | [resp' rg']]; [done |].
  injection H as _ <-. by rewrite lookup_insert_ne.
Qed.

Lemma dir_answer_untouched r gs resp gs' key :
  dir_answer r gs = inr (resp, gs') →
  ¬ is_groups_update r → target r ≠ Some key →
  gs' !! key = gs !! key.
Proof.
  intros H Hu Ht.
  destruct r; simpl in *; try done;
    try (eapply with_group_untouched; [exact H | congruence]).
  - destruct (gs !! body_email body); [done |]. injection H as _ <-.
    rewrite lookup_insert_ne; [done | congruence].
  - destruct (gs !! groupKey); [| done]. injection H as _ <-.
    rewrite lookup_delete_ne; [done | congruence].
  - by injection H as _ <-.
Qed.

Lemma dir_serve_untouched r d key :
  ¬ is_groups_update r → target r ≠ Some key →
  dir_groups (dir_serve r d).2 !! key = dir_groups d !! key.
Proof.
  intros Hu Ht. unfold dir_serve.
  destruct (dir_outage d r); [done |].
  destruct (dir_answer r (dir_groups d)) as [e | [resp gs]] eqn:E; [done |].
  simpl. by eapply dir_answer_untouched.
Qed.

Lemma served_untouched d evs d' key :
  served dir_serve d evs d' →
  Forall (only_executes (λ r, ¬ is_groups_update r ∧ target r ≠ Some key)) evs →
  dir_groups d' !! key = dir_groups d !! key.
Proof.
  induction 1 as [| d r rep d1 evs d' Hs _ IH | d sec evs d' _ IH]; intros Hall.
  - done.
  - apply Forall_cons in Hall as [[Hu Ht] Hall]. rewrite (IH Hall).
    pose proof (dir_serve_untouched r d key Hu Ht) as H. by rewrite Hs in H.
  - apply Forall_cons in Hall as [_ Hall]. by apply IH.
Qed.

(** C10: [sync_mailinglists] never executes a group deletion.  The loop goes
    over the wanted groups, and the name of a wanted group is never in the
    list of names to remove, so the branch that calls [delete_group] is not
    taken; every request a pass executes that addresses a group addresses a
    wanted one.  In the directory, a group that is not wanted is therefore
    the same after the pass as before. *)
Theorem sync_never_deletes_a_group :
  (∀ Remote (serve : Request → Remote → Reply * Remote) domain assembled fuel lists
     (w : World Remote),
     let wanted := default assembled lists in
     (∀ existing l, l ∈ wanted → name l ∉ remove_list_of existing (name <$> wanted)) ∧
     extends serve (only_executes (allowed domain wanted)) w
             (sync_mailinglists serve domain assembled fuel lists w).2) ∧
  (∀ domain assembled fuel lists (w : World Directory) key,
     (∀ g, g ∈ default assembled lists → key ≠ at_domain domain (name g)) →
     dir_groups (remote (sync_mailinglists dir_serve domain assembled fuel lists w).2) !! key
       = dir_groups (remote w) !! key).
Proof.
  split.
  - intros Remote serve domain assembled fuel lists w wanted. split.
    + intros existing l. apply wanted_not_removed.
    + apply emits_sync_mailinglists.
  - intros domain assembled fuel lists w key Hkey.
    destruct (emits_sync_mailinglists dir_serve domain assembled fuel lists w)
      as (evs & _ & Hall & Hsv).
    apply (served_untouched _ evs); [done |].
    eapply Forall_impl; [exact Hall |].
    intros [r rep |]; simpl; [| done].
    intros (_ & Hu & Ht). split; [done |].
    intros Hk. destruct (Ht key Hk) as (g & Hg & ->). by apply (Hkey g).
Qed.

(** ** The claims on concrete runs *)

(** Two pages served by the scripted service: the groups and the members of
    both pages are returned, the aliases of the first page only. *)
Lemma listings_follow_page_tokens_witness :
  let first := page ["A"; "B"] (Some "p2") in
  let second := page ["C"] None in
  let w := mkWorld [Ok first; Ok second] [] in
  (list_groups script_serve "example.org" 5 w).1 = Returns ["A"; "B"; "C"] ∧
  (list_members script_serve "example.org" 5 group_B w).1 = Returns ["A"; "B"; "C"] ∧
  (list_aliases script_serve "example.org" group_B w).1 = Returns ["A"; "B"].
Proof.
  intros first second w.
  destruct (listings_follow_page_tokens script_serve "example.org" 5 group_B w)
    as (Hgroups & Hmembers & Haliases).
  split; [| split].
  - destruct (Hgroups [first; second] []) as (w' & -> & _); [| simpl; lia | reflexivity].
    eapply pages_more; [reflexivity | reflexivity |].
    eapply pages_last; reflexivity.
  - destruct (Hmembers [first; second] []) as (w' & -> & _); [| simpl; lia | reflexivity].
    eapply pages_more; [reflexivity | reflexivity |].
    eapply pages_last; reflexivity.
  - by rewrite (Haliases first [Ok second] eq_refl).
Defined.

(** Group A, which is not wanted, after a pass over B and C. *)
Lemma sync_never_deletes_a_group_witness :
  let w := mkWorld directory_AB [] in
  dir_groups (remote (sync_mailinglists dir_serve "example.org" [] 5
                        (Some [group_B; group_C]) w).2) !! "A@example.org"
    = dir_groups (remote w) !! "A@example.org".
Proof.
  intros w.
  apply (proj2 sync_never_deletes_a_group "example.org" [] 5
           (Some [group_B; group_C]) w "A@example.org").
  intros g Hg. simpl in Hg.
  repeat (apply elem_of_cons in Hg as [-> | Hg]; [vm_compute; discriminate |]).
  by apply not_elem_of_nil in Hg.
Defined.

(** The enumeration of the groups fails on its second page. *)
Lemma sync_abandoned_when_listing_groups_fails_witness :
  let w := mkWorld [Ok (page ["A"] (Some "p2")); Failed (mkHttpError 500)] [] in
  let w1 := (list_groups script_serve "example.org" 5 w).2 in
  requests (trace w1)
    = [groups_list "example.org" None; groups_list "example.org" (Some "p2")] ∧
  sync_mailinglists script_serve "example.org" [] 5 (Some [group_B; group_C]) w
    = (Returns tt, w1) ∧
  extends script_serve (executes is_groups_list) w w1.
Proof.
  split; [vm_compute; reflexivity |].
  apply (sync_abandoned_when_listing_groups_fails script_serve "example.org" []
           5 (Some [group_B; group_C]) _ (mkHttpError 500)).
  vm_compute; reflexivity.
Defined.

(** The listing of the members of B fails during its update. *)
Lemma members_listing_failure_skips_only_members_witness :
  let w := mkWorld (mkDirectory (dir_groups directory_AB) member_listing_outage) [] in
  let w2 := (update_group dir_serve "example.org" 5 "B" group_B w).2 in
  requests (trace w2)
    = [aliases_list "B@example.org"; members_list "B@example.org" None] ∧
  sync_group dir_serve "example.org" 5 [] [] group_B w = (Returns tt, w2) ∧
  for_each [group_B; group_C] (sync_group dir_serve "example.org" 5 [] []) w
    = for_each [group_C] (sync_group dir_serve "example.org" 5 [] []) w2.
Proof.
  intros w w2. split; [vm_compute; reflexivity |].
  refine (proj2 (proj2
    (members_listing_failure_skips_only_members dir_serve "example.org"
       5 [] [] group_B [group_C] w
       (update_group_aliases dir_serve "example.org" group_B w).2 w2
       (mkHttpError 503) _ _ _))).
  - apply not_elem_of_nil.
  - vm_compute; reflexivity.
  - vm_compute; reflexivity.
Defined.

(** The creation of C in a directory that has A and B. *)
Lemma new_group_is_created_then_filled_witness :
  let insert := groups_insert (group_body "example.org" group_C) in
  ∃ w3 listing inserts,
    sync_group dir_serve "example.org" 5
               (remove_list_of ["A"; "B"] (name <$> [group_B; group_C]))
               (insert_list_of ["A"; "B"] (name <$> [group_B; group_C]))
               group_C (mkWorld directory_AB []) = (Returns tt, w3) ∧
    trace w3 = [] ++ [Executed insert (Ok empty_response); Slept (1 # 2)%Q]
                  ++ listing ++ inserts ∧
    Forall (executes (is_members_list (at_domain "example.org" (name group_C)))) listing ∧
    Forall2 (λ ev a, ∃ rep,
               ev = Executed (members_insert (at_domain "example.org" (name group_C))
                                             a "MEMBER") rep)
            inserts (addresses group_C).
Proof.
  intros insert.
  apply (new_group_is_created_then_filled dir_serve "example.org" 5 ["A"; "B"]
           [group_B; group_C] group_C (mkWorld directory_AB []) empty_response
           (dir_serve insert directory_AB).2
           (list_members dir_serve "example.org" 5 group_C
              (mkWorld (dir_serve insert directory_AB).2
                       [Executed insert (Ok empty_response); Slept (1 # 2)%Q])).2).
  - right; left.
  - intros H. repeat (apply elem_of_cons in H as [H | H]; [discriminate H |]).
    by apply not_elem_of_nil in H.
  - vm_compute; reflexivity.
  - vm_compute; reflexivity.
Defined.

(** C1, on the code: with the groups A and B in the directory and B and C
    wanted, one pass returns normally after it updated B (its aliases and
    members are listed, nothing differs) and created C; no request addresses
    A, no deletion is executed, and A is in the directory afterwards as it
    was before.  The claim expects the deletion of A. *)
Theorem obsolete_group_is_not_deleted :
  let run := sync_mailinglists dir_serve "example.org" [] 5
               (Some [group_B; group_C]) (mkWorld directory_AB []) in
  run.1 = Returns tt ∧
  requests (trace run.2)
    = [groups_list "example.org" None;
       aliases_list "B@example.org";
       members_list "B@example.org" None;
       groups_insert (mkGroupBody "C@example.org" "C" "list C");
       members_list "C@example.org" None;
       members_insert "C@example.org" "bob@example.org" "MEMBER"] ∧
  dir_groups (remote run.2) !! "A@example.org"
    = Some (mkRemoteGroup "A" "old A" {["ann@example.org"]} ∅).
Proof. vm_compute. repeat split; reflexivity. Qed.

(** C2, on the code: a pass raises [HttpError] to its caller when the
    insertion of a new group fails, and when the listing of the aliases of a
    group it updates fails; the groups that follow in the list are not
    processed. *)
Theorem sync_raises_on_unguarded_calls :
  let created := sync_mailinglists dir_serve "example.org" [] 5
                   (Some [group_C; group_B])
                   (mkWorld (mkDirectory (dir_groups directory_AB) insert_outage) []) in
  let updated := sync_mailinglists dir_serve "example.org" [] 5
                   (Some [group_B; group_C])
                   (mkWorld (mkDirectory (dir_groups directory_AB) alias_listing_outage) []) in
  created.1 = Raises (mkHttpError 503) ∧
  requests (trace created.2)
    = [groups_list "example.org" None;
       groups_insert (mkGroupBody "C@example.org" "C" "list C")] ∧
  updated.1 = Raises (mkHttpError 503) ∧
  requests (trace updated.2)
    = [groups_list "example.org" None; aliases_list "B@example.org"].
Proof. vm_compute. repeat split; reflexivity. Qed.

(** C7, on the code: for a group that is wanted and exists, the pass lists
    and reconciles the aliases and then the members, but it executes no group
    update: the description the directory holds for B stays what it was,
    not the wanted one. *)
Theorem update_request_is_never_executed :
  let run := sync_mailinglists dir_serve "example.org" [] 5
               (Some [group_B]) (mkWorld directory_AB []) in
  run.1 = Returns tt ∧
  description group_B = "list B" ∧
  requests (trace run.2)
    = [groups_list "example.org" None;
       aliases_list "B@example.org";
       members_list "B@example.org" None] ∧
  rg_description <$> dir_groups (remote run.2) !! "B@example.org" = Some "old B".
Proof. vm_compute. repeat split; reflexivity. Qed.

(** C6 fails for the aliases: served a first page of aliases that carries a
    page token, [list_aliases] returns the aliases of that page and never
    asks for the second page, which the service still holds. *)
Lemma alias_listing_stops_after_first_page :
  let second := Ok (page ["b2@example.org"] None) in
  let w := mkWorld [Ok (page ["b1@example.org"] (Some "p2")); second] [] in
  let run := list_aliases script_serve "example.org" group_B w in
  run.1 = Returns ["b1@example.org"] ∧
  run.1 ≠ Returns ["b1@example.org"; "b2@example.org"] ∧
  requests (trace run.2) = [aliases_list "B@example.org"] ∧
  remote run.2 = [second].
Proof. vm_compute. repeat split; try reflexivity. discriminate. Qed.

(** C9 fails for the aliases of a group the first pass creates: the first
    pass succeeds in every call, and the second pass inserts the alias of
    the new group. *)
Lemma second_pass_adds_aliases_of_new_group :
  let pass1 := sync_mailinglists dir_serve "example.org" [] 5
                 (Some [group_B; group_C]) (mkWorld directory_AB []) in
  let pass2 := sync_mailinglists dir_serve "example.org" [] 5
                 (Some [group_B; group_C]) (mkWorld (remote pass1.2) []) in
  pass1.1 = Returns tt ∧
  Forall succeeded (trace pass1.2) ∧
  filter adds_or_removes (requests (trace pass2.2))
    = [aliases_insert "C@example.org" "c-alias@example.org"] ∧
  filter adds_or_removes (requests (trace pass2.2)) ≠ [].
Proof.
  vm_compute. split; [reflexivity |]. split; [repeat constructor |].
  split; [reflexivity | discriminate].
Qed.

(** ** Two passes over the directory *)

Lemma string_app_inv_tail (s1 s2 t : string) : (s1 ++ t = s2 ++ t)%string → s1 = s2.
Proof.
  assert (∀ s u : string, String.length (s ++ u)%string = (String.length s + String.length u)%nat)
    as Hlen.
  { intros s u. induction s as [| a s IH]; simpl; [done | by rewrite IH]. }
  revert s2. induction s1 as [| a s1 IH]; intros [| b s2] H.
  - done.
  - apply (f_equal String.length) in H. rewrite !Hlen in H. simpl in H. lia.
  - apply (f_equal String.length) in H. rewrite !Hlen in H. simpl in H. lia.
  - change (String a (s1 ++ t)%string = String b (s2 ++ t)%string) in H.
    injection H as -> H. f_equal. by apply IH.
Qed.

Lemma at_domain_inj domain n n' : at_domain domain n = at_domain domain n' → n = n'.
Proof. apply string_app_inv_tail. Qed.

Lemma dir_serve_ok r d resp d' :
  dir_serve r d = (Ok resp, d') →
  dir_answer r (dir_groups d) = inr (resp, dir_groups d') ∧ dir_outage d' = dir_outage d.
Proof.
  unfold dir_serve. destruct (dir_outage d r); [done |].
  destruct (dir_answer r (dir_groups d)) as [e | [resp' gs]]; [done |].
  by intros [= <- <-].
Qed.

Lemma dir_serve_failed r d e d' : dir_serve r d = (Failed e, d') → d' = d.
Proof.
  unfold dir_serve. destruct (dir_outage d r); [by intros [= _ <-] |].
  destruct (dir_answer r (dir_groups d)) as [e' | [resp' gs]]; [| done].
  by intros [= _ <-].
Qed.

(** A listing leaves the directory as it is. *)
Lemma dir_serve_listing r d resp d' :
  adds_or_removes r = false → ¬ is_groups_update r →
  dir_serve r d = (Ok resp, d') → d' = d.
Proof.
  intros Hr Hu H. apply dir_serve_ok in H as [H Ho].
  assert (dir_groups d' = dir_groups d) as Hg.
  { destruct r; simpl in *; try done.
    - by injection H as _ <-.
    - unfold with_group in H. destruct (dir_groups d !! groupKey) eqn:E; [| done].
      injection H as _ <-. by apply insert_id.
    - unfold with_group in H. destruct (dir_groups d !! groupKey) eqn:E; [| done].
      injection H as _ <-. by apply insert_id. }
  destruct d, d'; simpl in *. by subst.
Qed.

Lemma with_group_ok key gs f resp gs' :
  with_group key gs f = inr (resp, gs') →
  ∃ rg rg', gs !! key = Some rg ∧ f rg = inr (resp, rg') ∧ gs' = <[key := rg']> gs.
Proof.
  unfold with_group. destruct (gs !! key) as [rg |]; [| done].
  destruct (f rg) as [e | [resp' rg']] eqn:E; [done |].
  intros [= <- <-]. by exists rg, rg'.
Qed.

Lemma fmap_member_resources (l : list string) :
  m_email <$> ((λ m, mkMemberResource m "MEMBER") <$> l) = l.
Proof. rewrite <- list_fmap_compose. apply list_fmap_id. Qed.

Lemma fmap_alias_resources key (l : list string) :
  a_alias <$> ((λ a, mkAliasResource a key) <$> l) = l.
Proof. rewrite <- list_fmap_compose. apply list_fmap_id. Qed.

Lemma listed_groups_page n gs :
  n ∈ g_name <$> resp_groups (groups_page gs) ↔ listed n gs.
Proof.
  unfold groups_page, listed. simpl. rewrite <- list_fmap_compose.
  rewrite list_elem_of_fmap. split.
  - intros ([k rg] & -> & Hin). apply elem_of_map_to_list in Hin. by exists k, rg.
  - intros (k & rg & Hk & <-). exists (k, rg). split; [done |].
    by apply elem_of_map_to_list.
Qed.

Section TwoPasses.
Variable domain : string.
Variable fuel : nat.

Local Abbreviation key_of g := (at_domain domain (name g)).

Lemma list_groups_dir (w : World Directory) :
  let r := groups_list domain None in
  (∃ e, list_groups dir_serve domain fuel w
          = (Raises e, mkWorld (remote w) (trace w ++ [Executed r (Failed e)]))) ∨
  list_groups dir_serve domain fuel w
    = (Returns (g_name <$> resp_groups (groups_page (dir_groups (remote w)))),
       mkWorld (remote w)
               (trace w ++ [Executed r (Ok (groups_page (dir_groups (remote w))))])).
Proof.
  intros r. unfold list_groups. fold r.
  destruct (dir_serve r (remote w)) as [[resp | e] d1] eqn:E.
  - right. pose proof (dir_serve_listing r _ _ _ eq_refl (λ H, H) E) as ->.
    pose proof (dir_serve_ok _ _ _ _ E) as [E' _]. simpl in E'. injection E' as <-.
    erewrite bind_returns by (by apply execute_ok).
    by rewrite while_nextPageToken_done.
  - left. exists e. pose proof (dir_serve_failed _ _ _ _ E) as ->.
    by erewrite bind_raises by (by apply execute_failed).
Qed.

Lemma list_members_dir g (w : World Directory) :
  let r := members_list (key_of g) None in
  (∃ e, list_members dir_serve domain fuel g w
          = (Raises e, mkWorld (remote w) (trace w ++ [Executed r (Failed e)]))) ∨
  (∃ rg, dir_groups (remote w) !! key_of g = Some rg ∧
         list_members dir_serve domain fuel g w
           = (Returns (elements (rg_members rg)),
              mkWorld (remote w) (trace w ++ [Executed r (Ok (members_page rg))]))).
Proof.
  intros r. unfold list_members. fold r.
  destruct (dir_serve r (remote w)) as [[resp | e] d1] eqn:E.
  - right. pose proof (dir_serve_listing r _ _ _ eq_refl (λ H, H) E) as ->.
    pose proof (dir_serve_ok _ _ _ _ E) as [E' _]. simpl in E'.
    apply with_group_ok in E' as (rg & rg' & Hrg & [= <- <-] & _).
    exists rg. split; [done |].
    erewrite bind_returns by (by apply execute_ok).
    rewrite while_nextPageToken_done by done. rewrite bind_ret.
    unfold members_page at 1. cbn [resp_members]. by rewrite fmap_member_resources.
  - left. exists e. pose proof (dir_serve_failed _ _ _ _ E) as ->.
    by erewrite bind_raises by (by apply execute_failed).
Qed.

Lemma list_aliases_dir g (w : World Directory) :
  let r := aliases_list (key_of g) in
  (∃ e, list_aliases dir_serve domain g w
          = (Raises e, mkWorld (remote w) (trace w ++ [Executed r (Failed e)]))) ∨
  (∃ rg, dir_groups (remote w) !! key_of g = Some rg ∧
         list_aliases dir_serve domain g w
           = (Returns (elements (rg_aliases rg)),
              mkWorld (remote w)
                      (trace w ++ [Executed r (Ok (aliases_page (key_of g) rg))]))).
Proof.
  intros r. unfold list_aliases. fold r.
  destruct (dir_serve r (remote w)) as [[resp | e] d1] eqn:E.
  - right. pose proof (dir_serve_listing r _ _ _ eq_refl (λ H, H) E) as ->.
    pose proof (dir_serve_ok _ _ _ _ E) as [E' _]. simpl in E'.
    apply with_group_ok in E' as (rg & rg' & Hrg & [= <- <-] & _).
    exists rg. split; [done |].
    erewrite bind_returns by (by apply execute_ok).
    unfold aliases_page at 1. cbn [resp_aliases]. by rewrite fmap_alias_resources.
  - left. exists e. pose proof (dir_serve_failed _ _ _ _ E) as ->.
    by erewrite bind_raises by (by apply execute_failed).
Qed.

Lemma all_ok {X} (f : X → Request) evs xs :
  Forall2 (λ ev x, ∃ rep, ev = Executed (f x) rep) evs xs →
  Forall succeeded evs →
  Forall2 (λ ev x, ∃ resp, ev = Executed (f x) (Ok resp)) evs xs.
Proof.
  induction 1 as [| ev x evs xs [rep ->] _ IH]; intros Hs; [constructor |].
  apply Forall_cons in Hs as [Hs1 Hs]. constructor; [| by apply IH].
  destruct rep as [resp | e]; [by exists resp | done].
Qed.

(** Requests that succeed one after the other on the group at [key], each
    with its effect on that group. *)
Lemma served_each_ok key (f : string → Request)
    (eff : string → RemoteGroup → RemoteGroup) :
  (∀ x d resp d1 rg,
     dir_serve (f x) d = (Ok resp, d1) → dir_groups d !! key = Some rg →
     dir_groups d1 !! key = Some (eff x rg)) →
  ∀ xs evs d d' rg,
    served dir_serve d evs d' →
    Forall2 (λ ev x, ∃ resp, ev = Executed (f x) (Ok resp)) evs xs →
    dir_groups d !! key = Some rg →
    dir_groups d' !! key = Some (foldl (λ rg x, eff x rg) rg xs).
Proof.
  intros Hstep xs. induction xs as [| x xs IH]; intros evs d d' rg Hsv Hev Hrg.
  - apply Forall2_nil_inv_r in Hev as ->. by inversion Hsv; subst.
  - apply Forall2_cons_inv_r in Hev as (ev & evs' & [resp ->] & Hev & ->).
    inversion Hsv as [| ? ? ? d1 ? ? Hs Hsv' |]; subst. simpl.
    eapply IH; [exact Hsv' | exact Hev |]. by eapply Hstep.
Qed.

Lemma with_group_step key gs f resp gs' rg :
  with_group key gs f = inr (resp, gs') → gs !! key = Some rg →
  ∃ rg', f rg = inr (resp, rg') ∧ gs' !! key = Some rg'.
Proof.
  intros H Hrg. apply with_group_ok in H as (rg0 & rg' & Hrg0 & Hf & ->).
  rewrite Hrg in Hrg0. injection Hrg0 as <-. exists rg'. split; [done |].
  apply lookup_insert_eq.
Qed.

Lemma members_delete_step key x d resp d1 rg :
  dir_serve (members_delete key x) d = (Ok resp, d1) →
  dir_groups d !! key = Some rg →
  dir_groups d1 !! key = Some (set_members rg (rg_members rg ∖ {[x]})).
Proof.
  intros H Hrg. apply dir_serve_ok in H as [H _]. simpl in H.
  destruct (with_group_step _ _ _ _ _ _ H Hrg) as (rg' & Hf & ->).
  destruct (decide _); [| done]. by injection Hf as _ <-.
Qed.

Lemma members_insert_step key role x d resp d1 rg :
  dir_serve (members_insert key x role) d = (Ok resp, d1) →
  dir_groups d !! key = Some rg →
  dir_groups d1 !! key = Some (set_members rg (rg_members rg ∪ {[x]})).
Proof.
  intros H Hrg. apply dir_serve_ok in H as [H _]. simpl in H.
  destruct (with_group_step _ _ _ _ _ _ H Hrg) as (rg' & Hf & ->).
  destruct (decide _); [done |]. by injection Hf as _ <-.
Qed.

Lemma aliases_delete_step key x d resp d1 rg :
  dir_serve (aliases_delete key x) d = (Ok resp, d1) →
  dir_groups d !! key = Some rg →
  dir_groups d1 !! key = Some (set_aliases rg (rg_aliases rg ∖ {[x]})).
Proof.
  intros H Hrg. apply dir_serve_ok in H as [H _]. simpl in H.
  destruct (with_group_step _ _ _ _ _ _ H Hrg) as (rg' & Hf & ->).
  destruct (decide _); [| done]. by injection Hf as _ <-.
Qed.

Lemma aliases_insert_step key x d resp d1 rg :
  dir_serve (aliases_insert key x) d = (Ok resp, d1) →
  dir_groups d !! key = Some rg →
  dir_groups d1 !! key = Some (set_aliases rg (rg_aliases rg ∪ {[x]})).
Proof.
  intros H Hrg. apply dir_serve_ok in H as [H _]. simpl in H.
  destruct (with_group_step _ _ _ _ _ _ H Hrg) as (rg' & Hf & ->).
  destruct (decide _); [done |]. by injection Hf as _ <-.
Qed.

Lemma foldl_members_delete rg xs :
  foldl (λ rg x, set_members rg (rg_members rg ∖ {[x]})) rg xs
    = set_members rg (rg_members rg ∖ list_to_set xs).
Proof.
  revert rg. induction xs as [| x xs IH]; intros [n dsc ms al]; simpl.
  - unfold set_members. simpl. f_equal. set_solver.
  - rewrite IH. unfold set_members. simpl. f_equal. set_solver.
Qed.

Lemma foldl_members_insert rg xs :
  foldl (λ rg x, set_members rg (rg_members rg ∪ {[x]})) rg xs
    = set_members rg (rg_members rg ∪ list_to_set xs).
Proof.
  revert rg. induction xs as [| x xs IH]; intros [n dsc ms al]; simpl.
  - unfold set_members. simpl. f_equal. set_solver.
  - rewrite IH. unfold set_members. simpl. f_equal. set_solver.
Qed.

Lemma foldl_aliases_delete rg xs :
  foldl (λ rg x, set_aliases rg (rg_aliases rg ∖ {[x]})) rg xs
    = set_aliases rg (rg_aliases rg ∖ list_to_set xs).
Proof.
  revert rg. induction xs as [| x xs IH]; intros [n dsc ms al]; simpl.
  - unfold set_aliases. simpl. f_equal. set_solver.
  - rewrite IH. unfold set_aliases. simpl. f_equal. set_solver.
Qed.

Lemma foldl_aliases_insert rg xs :
  foldl (λ rg x, set_aliases rg (rg_aliases rg ∪ {[x]})) rg xs
    = set_aliases rg (rg_aliases rg ∪ list_to_set xs).
Proof.
  revert rg. induction xs as [| x xs IH]; intros [n dsc ms al]; simpl.
  - unfold set_aliases. simpl. f_equal. set_solver.
  - rewrite IH. unfold set_aliases. simpl. f_equal. set_solver.
Qed.

(** Removing what is not wanted and adding what is missing leaves exactly
    what is wanted. *)
Lemma reconciled_set (have : gset string) (wanted : list string) :
  have ∖ list_to_set (remove_list_of (elements have) wanted)
    ∪ list_to_set (insert_list_of (elements have) wanted) = list_to_set wanted.
Proof.
  rewrite remove_list_of_set, insert_list_of_set, list_to_set_elements_L.
  apply set_eq. intros x. set_unfold.
  destruct (decide (x ∈ have)); destruct (decide (x ∈ wanted)); tauto.
Qed.

Lemma failed_not_succeeded (tr : list Event) r e :
  ¬ Forall succeeded (tr ++ [Executed r (Failed e)]).
Proof.
  intros H. apply Forall_app in H as [_ H]. by apply Forall_cons in H as [H _].
Qed.

(** A member reconciliation in which every call succeeds finds the group
    and leaves it with the wanted members. *)
Lemma update_group_members_settles g (w : World Directory) o w' :
  update_group_members dir_serve domain fuel g w = (o, w') →
  Forall succeeded (trace w') →
  o = Returns tt ∧
  ∃ rg, dir_groups (remote w) !! key_of g = Some rg ∧
        dir_groups (remote w') !! key_of g
          = Some (set_members rg (list_to_set (addresses g))).
Proof.
  unfold update_group_members. intros Hrun Hok.
  destruct (list_members_dir g w) as [[e He] | (rg & Hrg & Hl)].
  - erewrite (bind_returns _ _ w None) in Hrun.
    2:{ unfold try_except. by erewrite bind_raises by exact He. }
    injection Hrun as <- <-. by apply failed_not_succeeded in Hok.
  - erewrite (bind_returns _ _ w (Some (elements (rg_members rg)))) in Hrun.
    2:{ unfold try_except. by erewrite bind_returns by exact Hl. }
    cbv beta iota in Hrun.
    match type of Hrun with ?m ?w0 = _ =>
      destruct (reconcile_runs dir_serve
                  (members_delete (key_of g))
                  (λ x, members_insert (key_of g) x "MEMBER")
                  (remove_list_of (elements (rg_members rg)) (addresses g))
                  (insert_list_of (elements (rg_members rg)) (addresses g)) w0)
        as (w1 & w2 & evs1 & evs2 & Hrun2 & Htr & Hev1 & Hev2 & Hsv1 & Hsv2)
    end.
    rewrite Hrun2 in Hrun. injection Hrun as <- <-. split; [done |].
    rewrite Htr in Hok. apply Forall_app in Hok as [_ Hok].
    apply Forall_app in Hok as [Hok1 Hok2].
    exists rg. split; [done |].
    pose proof (served_each_ok (key_of g) _ _ (members_delete_step (key_of g))
                  _ _ _ _ rg Hsv1 (all_ok _ _ _ Hev1 Hok1) Hrg) as H1.
    rewrite foldl_members_delete in H1.
    pose proof (served_each_ok (key_of g) _ _ (members_insert_step (key_of g) "MEMBER")
                  _ _ _ _ _ Hsv2 (all_ok _ _ _ Hev2 Hok2) H1) as H2.
    rewrite foldl_members_insert in H2. rewrite H2. f_equal.
    unfold set_members. simpl. f_equal. apply reconciled_set.
Qed.

(** An alias reconciliation in which every call succeeds finds the group
    and leaves it with the wanted aliases. *)
Lemma update_group_aliases_settles g (w : World Directory) o w' :
  update_group_aliases dir_serve domain g w = (o, w') →
  Forall succeeded (trace w') →
  o = Returns tt ∧
  ∃ rg, dir_groups (remote w) !! key_of g = Some rg ∧
        dir_groups (remote w') !! key_of g
          = Some (set_aliases rg (list_to_set (at_domain domain <$> aliases g))).
Proof.
  unfold update_group_aliases. intros Hrun Hok.
  destruct (list_aliases_dir g w) as [[e He] | (rg & Hrg & Hl)].
  - rewrite (bind_raises _ _ w e _ He) in Hrun.
    injection Hrun as <- <-. by apply failed_not_succeeded in Hok.
  - rewrite (bind_returns _ _ w _ _ Hl) in Hrun.
    cbv beta zeta in Hrun.
    match type of Hrun with ?m ?w0 = _ =>
      destruct (reconcile_runs dir_serve
                  (aliases_delete (key_of g)) (aliases_insert (key_of g))
                  (remove_list_of (elements (rg_aliases rg))
                                  (at_domain domain <$> aliases g))
                  (insert_list_of (elements (rg_aliases rg))
                                  (at_domain domain <$> aliases g)) w0)
        as (w1 & w2 & evs1 & evs2 & Hrun2 & Htr & Hev1 & Hev2 & Hsv1 & Hsv2)
    end.
    rewrite Hrun2 in Hrun. injection Hrun as <- <-. split; [done |].
    rewrite Htr in Hok. apply Forall_app in Hok as [_ Hok].
    apply Forall_app in Hok as [Hok1 Hok2].
    exists rg. split; [done |].
    pose proof (served_each_ok (key_of g) _ _ (aliases_delete_step (key_of g))
                  _ _ _ _ rg Hsv1 (all_ok _ _ _ Hev1 Hok1) Hrg) as H1.
    rewrite foldl_aliases_delete in H1.
    pose proof (served_each_ok (key_of g) _ _ (aliases_insert_step (key_of g))
                  _ _ _ _ _ Hsv2 (all_ok _ _ _ Hev2 Hok2) H1) as H2.
    rewrite foldl_aliases_insert in H2. rewrite H2. f_equal.
    unfold set_aliases. simpl. f_equal. apply reconciled_set.
Qed.

(** Later events do not undo the success of earlier ones. *)
Lemma extends_succeeded Q (w w' : World Directory) :
  extends dir_serve Q w w' → Forall succeeded (trace w') → Forall succeeded (trace w).
Proof. intros (evs & -> & _ & _) H. by apply Forall_app in H as [H _]. Qed.

Lemma extends_untouched (w w' : World Directory) key :
  extends dir_serve (only_executes (within_group key)) w w' →
  ∀ key', key' ≠ key →
  dir_groups (remote w') !! key' = dir_groups (remote w) !! key'.
Proof.
  intros (evs & _ & Hall & Hsv) key' Hne.
  apply (served_untouched _ evs); [done |].
  eapply Forall_impl; [exact Hall |].
  intros [r rep |]; simpl; [| done].
  intros (Ht & _ & Hu). split; [done | congruence].
Qed.

Lemma sync_group_untouched rl il g (w : World Directory) o w' key :
  name g ∉ rl → key ≠ key_of g →
  sync_group dir_serve domain fuel rl il g w = (o, w') →
  dir_groups (remote w') !! key = dir_groups (remote w) !! key.
Proof.
  intros Hrl Hne Hrun.
  pose proof (emits_sync_group dir_serve domain fuel rl il g Hrl w) as H.
  rewrite Hrun in H. by eapply extends_untouched.
Qed.

Lemma sync_groups_untouched rl il todo (w : World Directory) o w' key :
  (∀ g, g ∈ todo → (name g ∉ rl) ∧ (key ≠ key_of g)) →
  for_each todo (sync_group dir_serve domain fuel rl il) w = (o, w') →
  dir_groups (remote w') !! key = dir_groups (remote w) !! key.
Proof.
  revert w. induction todo as [| g todo IH]; intros w Htodo Hrun.
  - by injection Hrun as _ <-.
  - apply for_each_cons_inv in Hrun as (o1 & w1 & Hg & Hrest).
    destruct (Htodo g) as [Hrl Hne]; [left |].
    rewrite <- (sync_group_untouched _ _ _ _ _ _ _ Hrl Hne Hg).
    destruct o1 as [[] | e |].
    + eapply IH; [| exact Hrest]. intros g' Hg'. apply Htodo. by right.
    + by destruct Hrest as [_ ->].
    + by destruct Hrest as [_ ->].
Qed.

(** In a first pass in which every call succeeds, the processing of a
    wanted group returns and leaves the group settled. *)
Lemma sync_group_settles rl il g (w : World Directory) o w' :
  name g ∉ rl →
  sync_group dir_serve domain fuel rl il g w = (o, w') →
  Forall succeeded (trace w') →
  o = Returns tt ∧
  settled domain il (dir_groups (remote w)) (dir_groups (remote w')) g.
Proof.
  intros Hrl Hrun Hok. unfold sync_group in Hrun.
  rewrite decide_False in Hrun by done.
  destruct (decide (name g ∈ il)) as [Hil | Hil].
  - unfold create_group in Hrun.
    destruct (dir_serve (groups_insert (group_body domain g)) (remote w))
      as [[resp | e] d1] eqn:E.
    + erewrite bind_returns in Hrun by (by apply execute_ok).
      erewrite bind_returns in Hrun by reflexivity.
      apply update_group_members_settles in Hrun as (-> & rg & Hrg & Hrg');
        [| done].
      split; [done |]. simpl in Hrg.
      apply dir_serve_ok in E as [E _]. simpl in E.
      destruct (dir_groups (remote w) !! key_of g) eqn:Hk; [done |].
      injection E as _ E. rewrite <- E, lookup_insert_eq in Hrg. injection Hrg as <-.
      eexists. split; [exact Hrg' |]. unfold settled. rewrite Hk. by simpl.
    + erewrite bind_raises in Hrun by (by apply execute_failed).
      injection Hrun as <- <-. by apply failed_not_succeeded in Hok.
  - unfold update_group in Hrun.
    destruct (update_group_aliases dir_serve domain g w) as [o1 w1] eqn:EA.
    assert (Forall succeeded (trace w1)) as Hok1.
    { destruct o1 as [[] | e |].
      - erewrite bind_returns in Hrun by exact EA.
        pose proof (emits_update_group_members dir_serve domain fuel g w1) as H.
        rewrite Hrun in H. by eapply extends_succeeded.
      - erewrite bind_raises in Hrun by exact EA. by injection Hrun as <- <-.
      - unfold mbind, M_bind, bind in Hrun. rewrite EA in Hrun.
        by injection Hrun as <- <-. }
    destruct (update_group_aliases_settles _ _ _ _ EA Hok1) as (-> & rg & Hrg & Hrg1).
    erewrite bind_returns in Hrun by exact EA.
    apply update_group_members_settles in Hrun as (-> & rg1 & Hrg1' & Hrg'); [| done].
    split; [done |]. rewrite Hrg1 in Hrg1'. injection Hrg1' as <-.
    eexists. split; [exact Hrg' |]. rewrite Hrg. by simpl.
Qed.

Lemma key_of_ne g g' : name g ≠ name g' → key_of g ≠ key_of g'.
Proof. intros Hne Heq. by apply at_domain_inj in Heq. Qed.

(** In a first pass in which every call succeeds, the loop returns and
    leaves every group it went over settled. *)
Lemma sync_groups_settle rl il todo :
  ∀ (w : World Directory) o w1,
    for_each todo (sync_group dir_serve domain fuel rl il) w = (o, w1) →
    Forall succeeded (trace w1) →
    NoDup (name <$> todo) →
    (∀ g, g ∈ todo → name g ∉ rl) →
    o = Returns tt ∧
    ∀ g, g ∈ todo → settled domain il (dir_groups (remote w)) (dir_groups (remote w1)) g.
Proof.
  induction todo as [| g todo IH]; intros w o w1 Hrun Hok Hnd Hrl.
  - injection Hrun as <- <-. split; [done |]. intros g Hg. by apply not_elem_of_nil in Hg.
  - apply for_each_cons_inv in Hrun as (o' & w' & Hg & Hrest).
    rewrite fmap_cons in Hnd. apply NoDup_cons in Hnd as [Hfresh Hnd].
    assert (∀ g', g' ∈ todo → name g' ≠ name g) as Hne.
    { intros g' Hg' Heq. apply Hfresh. rewrite <- Heq. by apply list_elem_of_fmap_2. }
    assert (Forall succeeded (trace w')) as Hok'.
    { destruct o' as [[] | e |]; [| by destruct Hrest as [_ <-] ..].
      eapply (extends_succeeded (only_executes (allowed domain todo))); [| exact Hok].
      pose proof (emits_sync_groups dir_serve domain fuel rl il todo todo) as H.
      specialize (H (λ l Hl, conj Hl (Hrl l (list_elem_of_further _ _ _ Hl))) w').
      by rewrite Hrest in H. }
    destruct (sync_group_settles _ _ _ _ _ _ (Hrl g (list_elem_of_here _ _)) Hg Hok')
      as [-> Hset].
    destruct (IH _ _ _ Hrest Hok Hnd (λ l Hl, Hrl l (list_elem_of_further _ _ _ Hl)))
      as [-> Hsets].
    split; [done |]. intros x Hx. apply elem_of_cons in Hx as [-> | Hx].
    + assert (dir_groups (remote w1) !! key_of g = dir_groups (remote w') !! key_of g)
        as Hsame.
      { eapply sync_groups_untouched; [| exact Hrest].
        intros g' Hg'. split; [apply Hrl; by right |].
        apply not_eq_sym, key_of_ne. by apply Hne. }
      unfold settled in *. by rewrite Hsame.
    + specialize (Hsets x Hx). unfold settled in *.
      rewrite <- (sync_group_untouched _ _ _ _ _ _ (key_of x)
                    (Hrl g (list_elem_of_here _ _)) (key_of_ne _ _ (Hne x Hx)) Hg).
      done.
Qed.

(** Nothing but a group deletion or update takes a name out of the listing
    of the groups. *)
Lemma dir_answer_keeps_names r gs resp gs' n :
  dir_answer r gs = inr (resp, gs') →
  ¬ is_groups_delete r → ¬ is_groups_update r →
  listed n gs → listed n gs'.
Proof.
  intros H Hd Hu (k & rg & Hk & Hn).
  assert (∀ key f,
            with_group key gs f = inr (resp, gs') →
            (∀ rg0 resp0 rg', f rg0 = inr (resp0, rg') → rg_name rg' = rg_name rg0) →
            listed n gs') as Hwith.
  { intros key f Hw Hf.
    apply with_group_ok in Hw as (rg0 & rg' & Hrg0 & Hfr & ->).
    destruct (decide (key = k)) as [-> | Hne].
    - exists k, rg'. rewrite lookup_insert_eq. split; [done |].
      rewrite (Hf _ _ _ Hfr). congruence.
    - exists k, rg. by rewrite lookup_insert_ne. }
  destruct r; simpl in *; try done;
    try (eapply Hwith; [exact H |]; intros rg0 resp0 rg' Hf; simpl in Hf;
         repeat case_decide; by simplify_eq).
  - destruct (gs !! body_email body) eqn:E; [done |]. injection H as _ <-.
    exists k, rg. rewrite lookup_insert_ne; [done | congruence].
  - injection H as _ <-. by exists k, rg.
Qed.

Lemma served_keeps_names d evs d' n :
  served dir_serve d evs d' →
  Forall (only_executes (λ r, ¬ is_groups_delete r ∧ ¬ is_groups_update r)) evs →
  listed n (dir_groups d) → listed n (dir_groups d').
Proof.
  induction 1 as [| d r rep d1 evs d' Hs _ IH | d sec evs d' _ IH]; intros Hall Hn.
  - done.
  - apply Forall_cons in Hall as [[Hd Hu] Hall]. apply IH; [done |].
    destruct rep as [resp | e].
    + apply dir_serve_ok in Hs as [Hs _]. by eapply dir_answer_keeps_names.
    + by apply dir_serve_failed in Hs as ->.
  - apply Forall_cons in Hall as [_ Hall]. by apply IH.
Qed.

(** Alias insertions leave the members of every group as they are. *)
Lemma served_alias_inserts_keep_members key (xs : list string) d evs d' rg' :
  served dir_serve d evs d' →
  Forall2 (λ ev x, ∃ rep, ev = Executed (aliases_insert key x) rep) evs xs →
  dir_groups d' !! key = Some rg' →
  ∃ rg, dir_groups d !! key = Some rg ∧ rg_members rg' = rg_members rg.
Proof.
  intros Hsv. revert xs.
  induction Hsv as [| d r rep d1 evs d' Hs _ IH | d sec evs d' _ IH];
    intros xs Hev Hrg'.
  - by exists rg'.
  - apply Forall2_cons_inv_l in Hev as (x & xs' & [rep' [= -> ->]] & Hev & ->).
    destruct (IH _ Hev Hrg') as (rg1 & Hrg1 & Hm).
    destruct rep' as [resp | e].
    + apply dir_serve_ok in Hs as [Hs _]. simpl in Hs.
      apply with_group_ok in Hs as (rg0 & rg0' & Hrg0 & Hf & Hgs).
      rewrite Hgs, lookup_insert_eq in Hrg1. injection Hrg1 as <-.
      exists rg0. split; [done |]. rewrite Hm.
      case_decide; [done |]. by injection Hf as _ <-.
    + apply dir_serve_failed in Hs as ->. by exists rg1.
  - apply Forall2_cons_inv_l in Hev as (x & xs' & [rep' [=]] & _).
Qed.

Lemma remove_list_of_covered (existing new : list string) :
  (∀ x, x ∈ existing → x ∈ new) → remove_list_of existing new = [].
Proof.
  intros H. unfold remove_list_of.
  induction existing as [| x xs IH]; [done |].
  rewrite filter_cons. rewrite decide_False.
  - apply IH. intros y Hy. apply H. by right.
  - intros Hn. apply Hn, H. left.
Qed.

Lemma insert_list_of_covered (existing new : list string) :
  (∀ x, x ∈ new → x ∈ existing) → insert_list_of existing new = [].
Proof. apply (remove_list_of_covered new existing). Qed.

Lemma silent_quiet before lists ev :
  silent ev → quiet_second_pass domain before lists ev.
Proof. destruct ev as [r rep |]; simpl; [| done]. intros -> ?. done. Qed.

(** On a group that has the wanted members, a member reconciliation only
    lists. *)
Lemma update_group_members_silent g (w : World Directory) o w' :
  (∀ rg, dir_groups (remote w) !! key_of g = Some rg →
         rg_members rg = list_to_set (addresses g)) →
  update_group_members dir_serve domain fuel g w = (o, w') →
  ∃ evs, trace w' = trace w ++ evs ∧ Forall silent evs.
Proof.
  unfold update_group_members. intros Hhave Hrun.
  destruct (list_members_dir g w) as [[e He] | (rg & Hrg & Hl)].
  - erewrite (bind_returns _ _ w None) in Hrun.
    2:{ unfold try_except. by erewrite bind_raises by exact He. }
    injection Hrun as <- <-. eexists. split; [reflexivity |]. by repeat constructor.
  - erewrite (bind_returns _ _ w (Some (elements (rg_members rg)))) in Hrun.
    2:{ unfold try_except. by erewrite bind_returns by exact Hl. }
    cbv beta iota in Hrun. rewrite (Hhave _ Hrg) in Hrun.
    rewrite remove_list_of_covered, insert_list_of_covered in Hrun.
    + injection Hrun as <- <-. eexists. split; [reflexivity |]. by repeat constructor.
    + intros x Hx. apply elem_of_elements. by apply elem_of_list_to_set.
    + intros x Hx. apply elem_of_elements in Hx. by apply elem_of_list_to_set in Hx.
Qed.

Lemma alias_inserts_quiet before lists g evs (xs : list string) :
  g ∈ lists → before !! key_of g = None →
  (∀ x, x ∈ xs → x ∈ at_domain domain <$> aliases g) →
  Forall2 (λ ev x, ∃ rep, ev = Executed (aliases_insert (key_of g) x) rep) evs xs →
  Forall (quiet_second_pass domain before lists) evs.
Proof.
  intros Hg Hb Hin Hev.
  induction Hev as [| ev x evs xs [rep ->] _ IH]; constructor.
  - simpl. intros _.
    destruct (list_elem_of_fmap_1 _ _ _ (Hin x (list_elem_of_here _ _)))
      as (a & -> & Ha).
    by exists g, a.
  - apply IH. intros y Hy. apply Hin. by right.
Qed.

(** On a reconciled group, an alias reconciliation lists the aliases and
    inserts nothing, unless the group was created by the first pass: then it
    inserts wanted aliases.  The members stay as they are. *)
Lemma update_group_aliases_quiet before lists g (w : World Directory) o w' :
  g ∈ lists →
  reconciled domain before (dir_groups (remote w)) g →
  update_group_aliases dir_serve domain g w = (o, w') →
  (∃ evs, trace w' = trace w ++ evs ∧
          Forall (quiet_second_pass domain before lists) evs) ∧
  (∀ rg', dir_groups (remote w') !! key_of g = Some rg' →
          rg_members rg' = list_to_set (addresses g)).
Proof.
  unfold update_group_aliases. intros Hg Hrec Hrun.
  destruct (list_aliases_dir g w) as [[e He] | (rg & Hrg & Hl)].
  - rewrite (bind_raises _ _ w e _ He) in Hrun. injection Hrun as <- <-. split.
    + eexists. split; [reflexivity |]. repeat constructor. by intros ?.
    + intros rg' Hrg'. by apply Hrec.
  - rewrite (bind_returns _ _ w _ _ Hl) in Hrun. cbv beta zeta in Hrun.
    destruct (Hrec rg Hrg) as [Hmem Hal].
    assert (remove_list_of (elements (rg_aliases rg)) (at_domain domain <$> aliases g) = [])
      as Hnone.
    { apply remove_list_of_covered. intros x Hx. apply elem_of_elements in Hx.
      destruct (before !! key_of g); rewrite Hal in Hx.
      - by apply elem_of_list_to_set in Hx.
      - by apply elem_of_empty in Hx. }
    rewrite Hnone in Hrun.
    match type of Hrun with (_ ≫= _) ?w0 = _ =>
      destruct (for_each_ignoring dir_serve (aliases_insert (key_of g))
                  (insert_list_of (elements (rg_aliases rg))
                                  (at_domain domain <$> aliases g)) w0)
        as (w2 & evs & Hrun2 & Htr & Hev & Hsv)
    end.
    erewrite bind_returns in Hrun by reflexivity.
    rewrite Hrun2 in Hrun. injection Hrun as <- <-. split.
    + simpl in Htr.
      exists ([Executed (aliases_list (key_of g)) (Ok (aliases_page (key_of g) rg))] ++ evs).
      split; [by rewrite Htr, app_assoc |].
      constructor; [by intros ? |].
      destruct (before !! key_of g) eqn:Hb.
      * rewrite insert_list_of_covered in Hev.
        { by apply Forall2_nil_inv_r in Hev as ->. }
        intros x Hx. apply elem_of_elements. rewrite Hal.
        by apply elem_of_list_to_set.
      * eapply alias_inserts_quiet; [done | done | | exact Hev].
        intros x Hx. by apply list_elem_of_filter in Hx as [_ Hx].
    + intros rg' Hrg'.
      destruct (served_alias_inserts_keep_members _ _ _ _ _ _ Hsv Hev Hrg')
        as (rg0 & Hrg0 & ->).
      simpl in Hrg0. by apply Hrec.
Qed.

(** In a second pass, the processing of a reconciled group is quiet. *)
Lemma sync_group_quiet before lists rl il g (w : World Directory) o w' :
  g ∈ lists → name g ∉ rl → name g ∉ il →
  reconciled domain before (dir_groups (remote w)) g →
  sync_group dir_serve domain fuel rl il g w = (o, w') →
  ∃ evs, trace w' = trace w ++ evs ∧
         Forall (quiet_second_pass domain before lists) evs.
Proof.
  intros Hg Hrl Hil Hrec Hrun. unfold sync_group in Hrun.
  rewrite !decide_False in Hrun by done. unfold update_group in Hrun.
  destruct (update_group_aliases dir_serve domain g w) as [o1 w1] eqn:EA.
  destruct (update_group_aliases_quiet before lists g w o1 w1 Hg Hrec EA)
    as [(evs1 & Htr1 & Hq1) Hmem].
  destruct o1 as [[] | e |].
  - erewrite bind_returns in Hrun by exact EA.
    destruct (update_group_members_silent g w1 o w' Hmem Hrun) as (evs2 & Htr2 & Hq2).
    exists (evs1 ++ evs2). split; [by rewrite Htr2, Htr1, app_assoc |].
    apply Forall_app. split; [done |].
    eapply Forall_impl; [exact Hq2 |]. intros ev. apply silent_quiet.
  - erewrite bind_raises in Hrun by exact EA. injection Hrun as <- <-. by exists evs1.
  - unfold mbind, M_bind, bind in Hrun. rewrite EA in Hrun.
    injection Hrun as <- <-. by exists evs1.
Qed.

Lemma sync_groups_quiet before lists rl il todo :
  ∀ (w : World Directory) o w',
    for_each todo (sync_group dir_serve domain fuel rl il) w = (o, w') →
    NoDup (name <$> todo) →
    (∀ g, g ∈ todo →
          g ∈ lists ∧ (name g ∉ rl) ∧ (name g ∉ il) ∧
          reconciled domain before (dir_groups (remote w)) g) →
    ∃ evs, trace w' = trace w ++ evs ∧
           Forall (quiet_second_pass domain before lists) evs.
Proof.
  induction todo as [| g todo IH]; intros w o w' Hrun Hnd Htodo.
  - injection Hrun as <- <-. exists []. by rewrite app_nil_r.
  - apply for_each_cons_inv in Hrun as (o1 & w1 & Hg & Hrest).
    rewrite fmap_cons in Hnd. apply NoDup_cons in Hnd as [Hfresh Hnd].
    destruct (Htodo g (list_elem_of_here _ _)) as (Hin & Hrl & Hil & Hrec).
    destruct (sync_group_quiet before lists rl il g w o1 w1 Hin Hrl Hil Hrec Hg)
      as (evs1 & Htr1 & Hq1).
    destruct o1 as [[] | e |]; [| destruct Hrest as [_ ->]; by exists evs1 ..].
    destruct (IH w1 o w' Hrest Hnd) as (evs2 & Htr2 & Hq2).
    { intros g' Hg'.
      destruct (Htodo g' (list_elem_of_further _ _ _ Hg')) as (Hin' & Hrl' & Hil' & Hrec').
      split; [done |]. split; [done |]. split; [done |]. unfold reconciled in *.
      rewrite (sync_group_untouched rl il g w (Returns tt) w1 (key_of g') Hrl); [done | | done].
      apply key_of_ne. intros Heq. apply Hfresh. rewrite <- Heq.
      by apply list_elem_of_fmap_2. }
    exists (evs1 ++ evs2). split; [by rewrite Htr2, Htr1, app_assoc |].
    by apply Forall_app.
Qed.

End TwoPasses.

(** C9, as the code has it: when a first pass over wanted groups with
    distinct names succeeds in every call, a second pass over the same wanted
    groups inserts and deletes no group and no member and deletes no alias;
    the only requests of the second pass that add or remove something insert
    a wanted alias into a group that was not in the directory before the
    first pass, which created it without its aliases. *)
Theorem second_pass_adds_only_aliases_of_new_groups
    domain assembled fuel lists (d0 : Directory) o1 w1 o2 w2 :
  NoDup (name <$> default assembled lists) →
  sync_mailinglists dir_serve domain assembled fuel lists (mkWorld d0 []) = (o1, w1) →
  Forall succeeded (trace w1) →
  sync_mailinglists dir_serve domain assembled fuel lists (mkWorld (remote w1) [])
    = (o2, w2) →
  o1 = Returns tt ∧
  Forall (quiet_second_pass domain (dir_groups d0) (default assembled lists)) (trace w2).
Proof.
  intros Hnd Hrun1 Hok Hrun2.
  pose proof (emits_sync_mailinglists dir_serve domain assembled fuel lists
                (mkWorld d0 [])) as Hemits.
  rewrite Hrun1 in Hemits. destruct Hemits as (evs0 & _ & Hall0 & Hsv0).
  simpl in Hall0, Hsv0.
  assert (∀ n, listed n (dir_groups d0) → listed n (dir_groups (remote w1))) as Hnames.
  { intros n. apply (served_keeps_names _ evs0); [done |].
    eapply Forall_impl; [exact Hall0 |].
    intros [r rep |]; simpl; [| done]. intros (Hd & Hu & _). by split. }
  unfold sync_mailinglists in Hrun1, Hrun2.
  replace (match lists with None => assembled | Some l => l end)
    with (default assembled lists) in Hrun1, Hrun2 by (by destruct lists).
  set (wanted := default assembled lists) in *.
  (* the first pass *)
  destruct (list_groups_dir domain fuel (mkWorld d0 [])) as [[e He] | Hl].
  { erewrite (bind_returns _ _ _ None) in Hrun1.
    2:{ unfold try_except. by erewrite bind_raises by exact He. }
    injection Hrun1 as <- <-. by apply (failed_not_succeeded []) in Hok. }
  erewrite (bind_returns _ _ _ (Some _)) in Hrun1.
  2:{ unfold try_except. by erewrite bind_returns by exact Hl. }
  cbv beta iota zeta in Hrun1. simpl remote in Hrun1.
  set (existing0 := g_name <$> resp_groups (groups_page (dir_groups d0))) in *.
  destruct (sync_groups_settle domain fuel _ _ wanted _ _ _ Hrun1 Hok Hnd)
    as [-> Hsettled].
  { intros g Hg. by apply wanted_not_removed. }
  simpl in Hsettled. split; [done |].
  (* the second pass *)
  destruct (list_groups_dir domain fuel (mkWorld (remote w1) [])) as [[e He] | Hl2].
  { erewrite (bind_returns _ _ _ None) in Hrun2.
    2:{ unfold try_except. by erewrite bind_raises by exact He. }
    injection Hrun2 as <- <-. simpl. repeat constructor. by intros ?. }
  erewrite (bind_returns _ _ _ (Some _)) in Hrun2.
  2:{ unfold try_except. by erewrite bind_returns by exact Hl2. }
  cbv beta iota zeta in Hrun2. simpl remote in Hrun2.
  set (existing1 := g_name <$> resp_groups (groups_page (dir_groups (remote w1)))) in *.
  destruct (sync_groups_quiet domain fuel (dir_groups d0) wanted _ _ wanted _ _ _ Hrun2 Hnd)
    as (evs & Htr & Hq).
  { intros g Hg. destruct (Hsettled g Hg) as (rg & Hrg & Hmem & Hal).
    split; [done |]. split; [by apply wanted_not_removed |]. split.
    - intros Hil. apply list_elem_of_filter in Hil as [Hnot _]. apply Hnot.
      apply listed_groups_page.
      destruct (dir_groups d0 !! at_domain domain (name g)) eqn:Hb.
      + destruct Hal as [_ Hil0]. apply Hnames. apply listed_groups_page.
        destruct (decide (name g ∈ existing0)) as [| Hnew]; [done |].
        destruct Hil0. apply list_elem_of_filter. split; [done |].
        by apply list_elem_of_fmap_2.
      + destruct Hal as [_ Hname]. by exists (at_domain domain (name g)), rg.
    - intros rg' Hrg'. simpl in Hrg'. rewrite Hrg in Hrg'. injection Hrg' as <-.
      split; [done |]. destruct (dir_groups d0 !! at_domain domain (name g)); by destruct Hal. }
  rewrite Htr. simpl. constructor; [by intros ? | done].
Qed.

(** Two passes over B, which exists, and C, which the first pass creates. *)
Lemma second_pass_adds_only_aliases_of_new_groups_witness :
  let pass1 := sync_mailinglists dir_serve "example.org" [] 5
                 (Some [group_B; group_C]) (mkWorld directory_AB []) in
  let pass2 := sync_mailinglists dir_serve "example.org" [] 5
                 (Some [group_B; group_C]) (mkWorld (remote pass1.2) []) in
  pass1.1 = Returns tt ∧
  Forall (quiet_second_pass "example.org" (dir_groups directory_AB) [group_B; group_C])
         (trace pass2.2).
Proof.
  intros pass1 pass2.
  apply (second_pass_adds_only_aliases_of_new_groups "example.org" [] 5
           (Some [group_B; group_C]) directory_AB pass1.1 pass1.2 pass2.1 pass2.2).
  - apply (bool_decide_unpack _). vm_compute. exact I.
  - apply surjective_pairing.
  - vm_compute. repeat constructor.
  - apply surjective_pairing.
Defined.

(** Why the names of the wanted groups have to be distinct: with two wanted
    groups of one name that want different members, every pass succeeds and
    every pass deletes and inserts members. *)
Example second_pass_with_duplicate_names :
  let lists := Some [group_B_ann; group_B_bob] in
  let pass1 := sync_mailinglists dir_serve "example.org" [] 5 lists
                 (mkWorld directory_AB []) in
  let pass2 := sync_mailinglists dir_serve "example.org" [] 5 lists
                 (mkWorld (remote pass1.2) []) in
  Forall succeeded (trace pass1.2) ∧
  filter adds_or_removes (requests (trace pass2.2))
    = [members_delete "B@example.org" "bob@example.org";
       members_insert "B@example.org" "ann@example.org" "MEMBER";
       members_delete "B@example.org" "ann@example.org";
       members_insert "B@example.org" "bob@example.org" "MEMBER"].
Proof. vm_compute. split; [repeat constructor | reflexivity]. Qed.

(** ** More on every directory service: what a reconciliation executes *)

Section EveryService.
Context {Remote : Type}.
Variable serve : Request → Remote → Reply * Remote.
Variable domain : string.

Local Abbreviation key_of g := (at_domain domain (name g)).

Lemma bind_returns_inv {A B} (m : M Remote A) (k : A → M Remote B) w b w' :
  (m ≫= k) w = (Returns b, w') →
  ∃ a w1, m w = (Returns a, w1) ∧ k a w1 = (Returns b, w').
Proof.
  unfold mbind, M_bind, bind. destruct (m w) as [[a | e |] w1]; try done.
  intros H. by exists a, w1.
Qed.

Lemma list_aliases_returns g w resp rem1 :
  serve (aliases_list (key_of g)) (remote w) = (Ok resp, rem1) →
  list_aliases serve domain g w
    = (Returns (a_alias <$> resp_aliases resp),
       mkWorld rem1 (trace w ++ [Executed (aliases_list (key_of g)) (Ok resp)])).
Proof.
  intros Hs. unfold list_aliases.
  by erewrite bind_returns by (by apply execute_ok).
Qed.

(** X3: when the listing of the aliases succeeds, [update_group_aliases]
    returns normally whatever the later calls answer, and it has executed, in
    this order: the listing, one deletion per listed alias that is not wanted,
    one insertion per wanted alias (qualified with the domain) that is not
    listed. *)
Theorem alias_reconciliation_trace g w resp rem1 :
  serve (aliases_list (key_of g)) (remote w) = (Ok resp, rem1) →
  let existing := a_alias <$> resp_aliases resp in
  let wanted := at_domain domain <$> aliases g in
  ∃ w' deletions insertions,
    update_group_aliases serve domain g w = (Returns tt, w') ∧
    trace w' = trace w ++ [Executed (aliases_list (key_of g)) (Ok resp)]
                       ++ deletions ++ insertions ∧
    Forall2 (λ ev x, ∃ rep, ev = Executed (aliases_delete (key_of g) x) rep)
            deletions (remove_list_of existing wanted) ∧
    Forall2 (λ ev x, ∃ rep, ev = Executed (aliases_insert (key_of g) x) rep)
            insertions (insert_list_of existing wanted).
Proof.
  intros Hs existing wanted.
  destruct (reconcile_runs serve (aliases_delete (key_of g)) (aliases_insert (key_of g))
              (remove_list_of existing wanted) (insert_list_of existing wanted)
              (mkWorld rem1 (trace w ++ [Executed (aliases_list (key_of g)) (Ok resp)])))
    as (w1 & w2 & dels & ins & Hrun & Htr & Hdel & Hins & _).
  exists w2, dels, ins. split; [| split; [| done]].
  - unfold update_group_aliases.
    by erewrite bind_returns by (by apply list_aliases_returns).
  - rewrite Htr. simpl. by rewrite <- app_assoc.
Qed.

(** X4: when the listing of the members returns, [update_group_members]
    returns normally whatever the later calls answer, and after the listing
    it has executed, in this order: one deletion per listed member that is
    not wanted, one insertion (with role MEMBER) per wanted address that is
    not listed. *)
Theorem member_reconciliation_trace fuel g w existing w1 :
  list_members serve domain fuel g w = (Returns existing, w1) →
  ∃ w' deletions insertions,
    update_group_members serve domain fuel g w = (Returns tt, w') ∧
    trace w' = trace w1 ++ deletions ++ insertions ∧
    Forall2 (λ ev x, ∃ rep, ev = Executed (members_delete (key_of g) x) rep)
            deletions (remove_list_of existing (addresses g)) ∧
    Forall2 (λ ev x, ∃ rep, ev = Executed (members_insert (key_of g) x "MEMBER") rep)
            insertions (insert_list_of existing (addresses g)).
Proof.
  intros Hl.
  destruct (reconcile_runs serve (members_delete (key_of g))
              (λ x, members_insert (key_of g) x "MEMBER")
              (remove_list_of existing (addresses g))
              (insert_list_of existing (addresses g)) w1)
    as (w2 & w3 & dels & ins & Hrun & Htr & Hdel & Hins & _).
  exists w3, dels, ins. split; [| done].
  unfold update_group_members.
  erewrite (bind_returns _ _ w (Some existing)).
  2:{ unfold try_except. by erewrite bind_returns by exact Hl. }
  exact Hrun.
Qed.

(** X5: the update of a group that is in sync only lists: when the listed
    aliases are the wanted aliases and the listed members are the wanted
    addresses (as sets, in any order), [update_group] returns after the two
    listings and executes no deletion and no insertion. *)
Theorem update_of_group_in_sync_only_lists fuel old_name g w resp rem1 existing w2 :
  serve (aliases_list (key_of g)) (remote w) = (Ok resp, rem1) →
  (∀ x, x ∈ a_alias <$> resp_aliases resp ↔ x ∈ at_domain domain <$> aliases g) →
  list_members serve domain fuel g
    (mkWorld rem1 (trace w ++ [Executed (aliases_list (key_of g)) (Ok resp)]))
    = (Returns existing, w2) →
  (∀ x, x ∈ existing ↔ x ∈ addresses g) →
  update_group serve domain fuel old_name g w = (Returns tt, w2).
Proof.
  intros Hs Hal Hl Hmem. unfold update_group.
  erewrite bind_returns.
  2:{ unfold update_group_aliases.
      erewrite bind_returns by (by apply list_aliases_returns).
      cbv beta zeta.
      rewrite remove_list_of_covered by (intros x; apply Hal).
      rewrite insert_list_of_covered by (intros x; apply Hal).
      reflexivity. }
  unfold update_group_members.
  erewrite (bind_returns _ _ _ (Some existing)).
  2:{ unfold try_except. by erewrite bind_returns by exact Hl. }
  cbv beta iota zeta.
  rewrite remove_list_of_covered by (intros x; apply Hmem).
  rewrite insert_list_of_covered by (intros x; apply Hmem).
  reflexivity.
Qed.

Ltac emits_steps :=
  repeat match goal with
    | |- emits _ _ (mret _) => apply emits_ret
    | |- emits _ _ (ret _) => apply emits_ret
    | |- emits _ _ out_of_fuel => apply emits_out_of_fuel
    | |- emits _ _ (sleep _) => apply emits_sleep
    | |- emits _ _ (_ ≫= _) => apply emits_bind
    | |- emits _ _ (try_except _ _) => apply emits_try_except
    | |- emits _ _ (for_each _ _) => apply emits_for_each
    | |- emits _ _ (execute _ _) => apply emits_execute
    | |- ∀ _, _ => intro
    end.

Lemma emits_alias_requests g :
  emits serve (executes (is_alias_request (key_of g)))
        (update_group_aliases serve domain g).
Proof. unfold update_group_aliases, list_aliases. emits_steps; by simpl. Qed.

Lemma emits_member_requests fuel g :
  emits serve (executes (is_member_request (key_of g)))
        (update_group_members serve domain fuel g).
Proof.
  unfold update_group_members. emits_steps.
  - eapply emits_mono; [| apply emits_list_members].
    intros [r rep |]; simpl; [| done]. by destruct r.
  - destruct a as [existing_members |]; emits_steps; by simpl.
Qed.

(** X6: [update_group] executes requests about the aliases of the group and
    then requests about the members of the group, and nothing else: no request
    about the group itself (its name is never used), no pause, no request for
    another group; once a member request is executed no alias request
    follows. *)
Theorem update_group_aliases_then_members fuel old_name g w :
  ∃ alias_events member_events,
    trace (update_group serve domain fuel old_name g w).2
      = trace w ++ alias_events ++ member_events ∧
    Forall (executes (is_alias_request (key_of g))) alias_events ∧
    Forall (executes (is_member_request (key_of g))) member_events.
Proof.
  unfold update_group, mbind, M_bind, bind.
  destruct (emits_alias_requests g w) as (evs1 & Htr1 & Hall1 & _).
  destruct (update_group_aliases serve domain g w) as [[[] | e |] w1]; simpl in *.
  - destruct (emits_member_requests fuel g w1) as (evs2 & Htr2 & Hall2 & _).
    exists evs1, evs2. split; [| done]. by rewrite Htr2, Htr1, app_assoc.
  - exists evs1, []. by rewrite app_nil_r.
  - exists evs1, []. by rewrite app_nil_r.
Qed.

(** X7: with an empty list of wanted groups, [sync_mailinglists] executes the
    enumeration of the remote groups and nothing else, and lets no error out:
    the groups that exist remotely are neither deleted nor changed. *)
Theorem sync_of_no_lists_only_lists_groups assembled fuel w :
  (∀ e, (sync_mailinglists serve domain assembled fuel (Some []) w).1 ≠ Raises e) ∧
  extends serve (executes is_groups_list) w
          (sync_mailinglists serve domain assembled fuel (Some []) w).2.
Proof.
  split.
  - intros e He.
    destruct (sync_mailinglists serve domain assembled fuel (Some []) w) as [o w'] eqn:E.
    simpl in He. subst o.
    destruct (raises_sync_mailinglists serve domain assembled fuel (Some []) w e w' E)
      as (_ & _ & _ & g & Hg & _).
    by apply not_elem_of_nil in Hg.
  - assert (emits serve (executes is_groups_list)
                  (sync_mailinglists serve domain assembled fuel (Some []))) as H;
      [| apply H].
    unfold sync_mailinglists. emits_steps.
    + apply emits_list_groups.
    + destruct a; simpl; apply emits_ret.
Qed.

(** The pages of a listing are asked for one by one: the first request
    carries no token, each request after it the token of the page before. *)
Lemma while_nextPageToken_trace {X} next (items : Response → list X) r rem ps rem' :
  pages serve next r rem ps rem' →
  ∀ (fuel : nat) w acc, remote w = rem → (length ps ≤ S fuel)%nat →
  ∃ w', (response ← execute serve r;
         while_nextPageToken serve fuel next items response (acc ++ items response)) w
          = (Returns (acc ++ concat (items <$> ps)), w') ∧
        trace w' = trace w ++ zip_with Executed (r :: (next <$> omap nextPageToken ps))
                                                (Ok <$> ps).
Proof.
  induction 1 as [r rem resp rem' Hs Hno | r rem resp token rem1 ps rem' Hs Htok Hps IH];
    intros fuel w acc Hw Hlen; subst rem.
  - eexists. erewrite bind_returns by (by apply execute_ok).
    rewrite while_nextPageToken_done by done. simpl.
    rewrite Hno, app_nil_r. split; reflexivity.
  - assert (∃ fuel', fuel = S fuel') as [fuel' ->].
    { destruct fuel; [| by eexists]. inversion Hps; subst; simpl in Hlen; lia. }
    erewrite bind_returns by (by apply execute_ok). simpl. rewrite Htok.
    destruct (IH fuel' (mkWorld rem1 (trace w ++ [Executed r (Ok resp)]))
                 (acc ++ items resp) eq_refl) as (w' & Hrun & Htr).
    { simpl in Hlen. lia. }
    exists w'. split.
    + rewrite Hrun. by rewrite <- app_assoc.
    + rewrite Htr. simpl. by rewrite <- app_assoc.
Qed.

(** X8: the enumeration of the groups and the listing of the members of a
    group execute exactly one request per page the service serves: the first
    without a page token, every next one with the token of the page just
    received, and none after the page that has no token. *)
Theorem listings_request_page_after_page fuel g w ps rem' :
  (length ps ≤ S fuel)%nat →
  (pages serve (λ token, groups_list domain (Some token))
         (groups_list domain None) (remote w) ps rem' →
   trace (list_groups serve domain fuel w).2
     = trace w ++ zip_with Executed
                    (groups_list domain None
                       :: ((λ token, groups_list domain (Some token))
                             <$> omap nextPageToken ps))
                    (Ok <$> ps)) ∧
  (pages serve (λ token, members_list (key_of g) (Some token))
         (members_list (key_of g) None) (remote w) ps rem' →
   trace (list_members serve domain fuel g w).2
     = trace w ++ zip_with Executed
                    (members_list (key_of g) None
                       :: ((λ token, members_list (key_of g) (Some token))
                             <$> omap nextPageToken ps))
                    (Ok <$> ps)).
Proof.
  intros Hlen. split; intros Hps.
  - destruct (while_nextPageToken_trace _ resp_groups _ _ _ _ Hps fuel w [] eq_refl Hlen)
      as (w' & Hrun & Htr).
    unfold list_groups. rewrite bind_assoc.
    by erewrite bind_returns by exact Hrun.
  - destruct (while_nextPageToken_trace _ resp_members _ _ _ _ Hps fuel w [] eq_refl Hlen)
      as (w' & Hrun & Htr).
    unfold list_members. rewrite bind_assoc.
    by erewrite bind_returns by exact Hrun.
Qed.

(** Every run of a call that starts by executing a request adds an event. *)
Lemma execute_grows r w :
  ∃ ev rest, trace (execute serve r w).2 = trace w ++ ev :: rest.
Proof.
  unfold execute. destruct (serve r (remote w)) as [[resp | e] rem]; simpl; eauto.
Qed.

Lemma bind_grows {A B} (m : M Remote A) (k : A → M Remote B) :
  (∀ w, ∃ ev rest, trace (m w).2 = trace w ++ ev :: rest) →
  (∀ a, emits serve (λ _, True) (k a)) →
  ∀ w, ∃ ev rest, trace ((m ≫= k) w).2 = trace w ++ ev :: rest.
Proof.
  intros Hm Hk w. destruct (Hm w) as (ev & rest & Htr).
  unfold mbind, M_bind, bind. destruct (m w) as [[a | e |] w1]; simpl in *; eauto.
  destruct (Hk a w1) as (evs & Htr' & _). exists ev, (rest ++ evs).
  rewrite Htr', Htr. by rewrite <- app_assoc.
Qed.

Lemma emits_anything {A} Q (m : M Remote A) : emits serve Q m → emits serve (λ _, True) m.
Proof. by apply emits_mono. Qed.

Lemma sync_group_grows fuel rl il g :
  name g ∉ rl →
  ∀ w, ∃ ev rest,
    trace (sync_group serve domain fuel rl il g w).2 = trace w ++ ev :: rest.
Proof.
  intros Hrl. unfold sync_group. rewrite decide_False by done.
  destruct (decide _).
  - unfold create_group. apply bind_grows; [apply execute_grows |].
    intros _. apply emits_bind; [by apply emits_sleep |].
    intros _. eapply emits_anything, emits_update_group_members.
  - unfold update_group. apply bind_grows.
    + unfold update_group_aliases. apply bind_grows.
      * unfold list_aliases. apply bind_grows; [apply execute_grows |].
        intros resp. apply emits_ret.
      * intros existing. emits_steps; done.
    + intros _. eapply emits_anything, emits_update_group_members.
Qed.

Lemma sync_group_segment fuel rl il g w o w1 :
  name g ∉ rl →
  sync_group serve domain fuel rl il g w = (o, w1) →
  ∃ seg, trace w1 = trace w ++ seg ∧ seg ≠ [] ∧
         Forall (only_executes (within_group (key_of g))) seg.
Proof.
  intros Hrl Hrun.
  destruct (emits_sync_group serve domain fuel rl il g Hrl w) as (seg & Htr & Hall & _).
  destruct (sync_group_grows fuel rl il g Hrl w) as (ev & rest & Hgrow).
  rewrite Hrun in Htr, Hgrow. simpl in *.
  exists seg. split; [done |]. split; [| done].
  intros ->. rewrite app_nil_r in Htr. rewrite Htr in Hgrow.
  apply (f_equal length) in Hgrow. rewrite length_app in Hgrow. simpl in Hgrow. lia.
Qed.

Lemma sync_groups_segments fuel rl il todo :
  ∀ w w',
    for_each todo (sync_group serve domain fuel rl il) w = (Returns tt, w') →
    (∀ g, g ∈ todo → name g ∉ rl) →
    ∃ segs, trace w' = trace w ++ concat segs ∧
            Forall2 (λ seg g, seg ≠ [] ∧
                              Forall (only_executes (within_group (key_of g))) seg)
                    segs todo.
Proof.
  induction todo as [| g todo IH]; intros w w' Hrun Hrl.
  - injection Hrun as <-. exists []. simpl. by rewrite app_nil_r.
  - apply for_each_cons_inv in Hrun as (o1 & w1 & Hg & Hrest).
    destruct (sync_group_segment fuel rl il g w o1 w1 (Hrl g (list_elem_of_here _ _)) Hg)
      as (seg & Htr & Hne & Hall).
    destruct o1 as [[] | e |]; [| by destruct Hrest ..].
    destruct (IH w1 w' Hrest) as (segs & Htr' & Hsegs).
    { intros g' Hg'. apply Hrl. by right. }
    exists (seg :: segs). split.
    + rewrite Htr', Htr. simpl. by rewrite <- app_assoc.
    + by constructor.
Qed.

(** X9: a pass that enumerated the groups and returned went through the
    wanted groups one after the other, in the order of the list: after the
    enumeration its trace is one non-empty run of events per wanted group, and
    the requests in the run of a group all address that group. *)
Theorem completed_pass_goes_group_by_group assembled fuel lists w existing w1 w' :
  list_groups serve domain fuel w = (Returns existing, w1) →
  sync_mailinglists serve domain assembled fuel lists w = (Returns tt, w') →
  ∃ segs, trace w' = trace w1 ++ concat segs ∧
          Forall2 (λ seg g, seg ≠ [] ∧
                            Forall (only_executes (within_group (key_of g))) seg)
                  segs (default assembled lists).
Proof.
  intros Hl Hrun. unfold sync_mailinglists in Hrun.
  replace (match lists with None => assembled | Some l => l end)
    with (default assembled lists) in Hrun by (by destruct lists).
  erewrite (bind_returns _ _ w (Some existing)) in Hrun.
  2:{ unfold try_except. by erewrite bind_returns by exact Hl. }
  cbv beta iota zeta in Hrun.
  eapply sync_groups_segments; [exact Hrun |].
  intros g Hg. by apply wanted_not_removed.
Qed.

End EveryService.

(** ** More on the directory: what passes achieve *)

Section Convergence.
Variable domain : string.
Variable fuel : nat.
Variable assembled : list GroupData.

Local Abbreviation key_of g := (at_domain domain (name g)).
Local Abbreviation sync := (sync_mailinglists dir_serve domain assembled fuel).

(** A pass in which every call succeeds returns, leaves every wanted group
    settled and listed, and takes no name out of the listing. *)
Lemma successful_pass_settles lists (w : World Directory) o1 w1 :
  NoDup (name <$> default assembled lists) →
  sync lists w = (o1, w1) →
  Forall succeeded (trace w1) →
  o1 = Returns tt ∧
  ∀ g, g ∈ default assembled lists →
       listed (name g) (dir_groups (remote w1)) ∧
       ∃ il, settled domain il (dir_groups (remote w)) (dir_groups (remote w1)) g.
Proof.
  intros Hnd Hrun Hok.
  pose proof (emits_sync_mailinglists dir_serve domain assembled fuel lists w) as Hemits.
  rewrite Hrun in Hemits. destruct Hemits as (evs0 & _ & Hall0 & Hsv0).
  simpl in Hsv0.
  assert (∀ n, listed n (dir_groups (remote w)) → listed n (dir_groups (remote w1)))
    as Hnames.
  { intros n. apply (served_keeps_names _ evs0); [done |].
    eapply Forall_impl; [exact Hall0 |].
    intros [r rep |]; simpl; [| done]. intros (Hd & Hu & _). by split. }
  unfold sync_mailinglists in Hrun.
  replace (match lists with None => assembled | Some l => l end)
    with (default assembled lists) in Hrun by (by destruct lists).
  set (wanted := default assembled lists) in *.
  destruct (list_groups_dir domain fuel w) as [[e He] | Hl].
  { erewrite (bind_returns _ _ _ None) in Hrun.
    2:{ unfold try_except. by erewrite bind_raises by exact He. }
    injection Hrun as <- <-. by apply failed_not_succeeded in Hok. }
  erewrite (bind_returns _ _ _ (Some _)) in Hrun.
  2:{ unfold try_except. by erewrite bind_returns by exact Hl. }
  cbv beta iota zeta in Hrun.
  set (existing := g_name <$> resp_groups (groups_page (dir_groups (remote w)))) in *.
  destruct (sync_groups_settle domain fuel _ _ wanted _ _ _ Hrun Hok Hnd)
    as [-> Hsettled].
  { intros g Hg. by apply wanted_not_removed. }
  simpl in Hsettled. split; [done |].
  intros g Hg. specialize (Hsettled g Hg). split; [| by eexists].
  destruct Hsettled as (rg & Hrg & _ & Hal).
  destruct (dir_groups (remote w) !! key_of g) eqn:Hb.
  - destruct Hal as [_ Hil]. apply Hnames. apply listed_groups_page.
    destruct (decide (name g ∈ existing)) as [| Hnew]; [done |].
    destruct Hil. apply list_elem_of_filter. split; [done |].
    by apply list_elem_of_fmap_2.
  - destruct Hal as [_ Hname]. by exists (key_of g), rg.
Qed.

(** A pass over groups that are listed and reconciled is quiet. *)
Lemma pass_over_reconciled_is_quiet before lists (w : World Directory) o w' :
  NoDup (name <$> default assembled lists) →
  (∀ g, g ∈ default assembled lists →
        listed (name g) (dir_groups (remote w)) ∧
        reconciled domain before (dir_groups (remote w)) g) →
  sync lists w = (o, w') →
  ∃ evs, trace w' = trace w ++ evs ∧
         Forall (quiet_second_pass domain before (default assembled lists)) evs.
Proof.
  intros Hnd Hgroups Hrun. unfold sync_mailinglists in Hrun.
  replace (match lists with None => assembled | Some l => l end)
    with (default assembled lists) in Hrun by (by destruct lists).
  set (wanted := default assembled lists) in *.
  destruct (list_groups_dir domain fuel w) as [[e He] | Hl].
  { erewrite (bind_returns _ _ _ None) in Hrun.
    2:{ unfold try_except. by erewrite bind_raises by exact He. }
    injection Hrun as <- <-. eexists. split; [reflexivity |].
    repeat constructor. by intros ?. }
  erewrite (bind_returns _ _ _ (Some _)) in Hrun.
  2:{ unfold try_except. by erewrite bind_returns by exact Hl. }
  cbv beta iota zeta in Hrun.
  destruct (sync_groups_quiet domain fuel before wanted _ _ wanted _ _ _ Hrun Hnd)
    as (evs & Htr & Hq).
  { intros g Hg. destruct (Hgroups g Hg) as [Hlisted Hrec].
    split; [done |]. split; [by apply wanted_not_removed |]. split; [| done].
    intros Hil. apply list_elem_of_filter in Hil as [Hnot _]. apply Hnot.
    by apply listed_groups_page. }
  simpl in Htr.
  eexists. split; [by rewrite Htr, <- app_assoc |].
  constructor; [by intros ? | done].
Qed.

(** X10: a pass over wanted groups with distinct names in which every call
    succeeds returns normally and leaves every wanted group in the directory
    with exactly the wanted addresses as members; a group that was in the
    directory before has exactly the wanted aliases, a group the pass created
    has the wanted name and no alias. *)
Theorem successful_pass_reaches_wanted_members lists (d0 : Directory) o1 w1 :
  NoDup (name <$> default assembled lists) →
  sync lists (mkWorld d0 []) = (o1, w1) →
  Forall succeeded (trace w1) →
  o1 = Returns tt ∧
  ∀ g, g ∈ default assembled lists →
    ∃ rg, dir_groups (remote w1) !! key_of g = Some rg ∧
          rg_members rg = list_to_set (addresses g) ∧
          (is_Some (dir_groups d0 !! key_of g) →
           rg_aliases rg = list_to_set (at_domain domain <$> aliases g)) ∧
          (dir_groups d0 !! key_of g = None →
           rg_aliases rg = ∅ ∧ rg_name rg = name g).
Proof.
  intros Hnd Hrun Hok.
  destruct (successful_pass_settles lists _ _ _ Hnd Hrun Hok) as [-> Hall].
  split; [done |]. intros g Hg.
  destruct (Hall g Hg) as (_ & il & rg & Hrg & Hmem & Hal). simpl in Hal.
  exists rg. split; [done |]. split; [done |].
  destruct (dir_groups d0 !! key_of g); split.
  - intros _. by destruct Hal.
  - done.
  - by intros [? ?].
  - done.
Qed.

(** X11: two passes are enough.  When two passes in a row over the same
    wanted groups with distinct names succeed in every call, a third pass
    inserts nothing and deletes nothing: no group, no member, no alias. *)
Theorem third_pass_is_silent lists (d0 : Directory) o1 w1 o2 w2 o3 w3 :
  NoDup (name <$> default assembled lists) →
  sync lists (mkWorld d0 []) = (o1, w1) → Forall succeeded (trace w1) →
  sync lists (mkWorld (remote w1) []) = (o2, w2) → Forall succeeded (trace w2) →
  sync lists (mkWorld (remote w2) []) = (o3, w3) →
  Forall silent (trace w3).
Proof.
  intros Hnd Hrun1 Hok1 Hrun2 Hok2 Hrun3.
  destruct (successful_pass_settles lists _ _ _ Hnd Hrun1 Hok1) as [_ Hall1].
  destruct (successful_pass_settles lists _ _ _ Hnd Hrun2 Hok2) as [_ Hall2].
  simpl in Hall1, Hall2.
  destruct (pass_over_reconciled_is_quiet (dir_groups (remote w1)) lists
              (mkWorld (remote w2) []) o3 w3 Hnd) as (evs & Htr & Hq);
    [| exact Hrun3 |].
  { intros g Hg. destruct (Hall2 g Hg) as (Hlisted & il & rg & Hrg & Hmem & Hal).
    split; [done |]. intros rg' Hrg'. simpl in Hrg'. rewrite Hrg in Hrg'.
    injection Hrg' as <-. split; [done |].
    destruct (dir_groups (remote w1) !! key_of g); by destruct Hal. }
  rewrite Htr. simpl. eapply Forall_impl; [exact Hq |].
  intros [r rep |]; simpl; [| done]. intros Hquiet.
  destruct (adds_or_removes r) eqn:Hr; [| done].
  destruct (Hquiet eq_refl) as (g & a & Hg & _ & _ & Hnone).
  destruct (Hall1 g Hg) as (_ & il & rg & Hrg & _). congruence.
Qed.

(** *** With a transport that works *)

(** A request for the group at [key] whose outcome, success or error, leaves
    the group as [eff] describes. *)
Lemma dir_serve_effect r key f (eff : RemoteGroup → RemoteGroup) d rep d1 rg :
  (∀ gs, dir_answer r gs = with_group key gs f) →
  (∀ rg, match f rg with
         | inl _ => eff rg = rg
         | inr (_, rg') => rg' = eff rg
         end) →
  dir_outage d r = false →
  dir_serve r d = (rep, d1) →
  dir_groups d !! key = Some rg →
  dir_groups d1 !! key = Some (eff rg) ∧ dir_outage d1 = dir_outage d.
Proof.
  intros Hans Hf Hout Hs Hrg. unfold dir_serve in Hs.
  rewrite Hout, Hans in Hs. unfold with_group in Hs. rewrite Hrg in Hs.
  specialize (Hf rg). destruct (f rg) as [e | [resp rg']].
  - injection Hs as _ <-. by rewrite Hf.
  - injection Hs as _ <-. simpl. by rewrite lookup_insert_eq, Hf.
Qed.

Lemma set_members_same rg ms : ms = rg_members rg → set_members rg ms = rg.
Proof. intros ->. by destruct rg. Qed.

Lemma set_aliases_same rg al : al = rg_aliases rg → set_aliases rg al = rg.
Proof. intros ->. by destruct rg. Qed.

Lemma members_delete_effect key x d rep d1 rg :
  dir_outage d (members_delete key x) = false →
  dir_serve (members_delete key x) d = (rep, d1) →
  dir_groups d !! key = Some rg →
  dir_groups d1 !! key = Some (set_members rg (rg_members rg ∖ {[x]})) ∧
  dir_outage d1 = dir_outage d.
Proof.
  intros Hout Hs Hrg.
  eapply (dir_serve_effect (members_delete key x) key _ (λ rg, set_members rg (rg_members rg ∖ {[x]})));
    [intros gs; reflexivity | | exact Hout | exact Hs | exact Hrg].
  intros rg'. simpl. case_decide; [done |]. apply set_members_same. set_solver.
Qed.

Lemma members_insert_effect key role x d rep d1 rg :
  dir_outage d (members_insert key x role) = false →
  dir_serve (members_insert key x role) d = (rep, d1) →
  dir_groups d !! key = Some rg →
  dir_groups d1 !! key = Some (set_members rg (rg_members rg ∪ {[x]})) ∧
  dir_outage d1 = dir_outage d.
Proof.
  intros Hout Hs Hrg.
  eapply (dir_serve_effect (members_insert key x role) key _ (λ rg, set_members rg (rg_members rg ∪ {[x]})));
    [intros gs; reflexivity | | exact Hout | exact Hs | exact Hrg].
  intros rg'. simpl. case_decide; [| done]. apply set_members_same. set_solver.
Qed.

Lemma aliases_delete_effect key x d rep d1 rg :
  dir_outage d (aliases_delete key x) = false →
  dir_serve (aliases_delete key x) d = (rep, d1) →
  dir_groups d !! key = Some rg →
  dir_groups d1 !! key = Some (set_aliases rg (rg_aliases rg ∖ {[x]})) ∧
  dir_outage d1 = dir_outage d.
Proof.
  intros Hout Hs Hrg.
  eapply (dir_serve_effect (aliases_delete key x) key _ (λ rg, set_aliases rg (rg_aliases rg ∖ {[x]})));
    [intros gs; reflexivity | | exact Hout | exact Hs | exact Hrg].
  intros rg'. simpl. case_decide; [done |]. apply set_aliases_same. set_solver.
Qed.

Lemma aliases_insert_effect key x d rep d1 rg :
  dir_outage d (aliases_insert key x) = false →
  dir_serve (aliases_insert key x) d = (rep, d1) →
  dir_groups d !! key = Some rg →
  dir_groups d1 !! key = Some (set_aliases rg (rg_aliases rg ∪ {[x]})) ∧
  dir_outage d1 = dir_outage d.
Proof.
  intros Hout Hs Hrg.
  eapply (dir_serve_effect (aliases_insert key x) key _ (λ rg, set_aliases rg (rg_aliases rg ∪ {[x]})));
    [intros gs; reflexivity | | exact Hout | exact Hs | exact Hrg].
  intros rg'. simpl. case_decide; [| done]. apply set_aliases_same. set_solver.
Qed.

(** Requests executed one after the other on the group at [key], each with
    its effect, whether it succeeds or not. *)
Lemma served_each_effect key (f : string → Request)
    (eff : string → RemoteGroup → RemoteGroup) :
  (∀ x d rep d1 rg,
     dir_outage d (f x) = false → dir_serve (f x) d = (rep, d1) →
     dir_groups d !! key = Some rg →
     dir_groups d1 !! key = Some (eff x rg) ∧ dir_outage d1 = dir_outage d) →
  ∀ xs evs d d' rg,
    served dir_serve d evs d' →
    Forall2 (λ ev x, ∃ rep, ev = Executed (f x) rep) evs xs →
    (∀ r, dir_outage d r = false) →
    dir_groups d !! key = Some rg →
    dir_groups d' !! key = Some (foldl (λ rg x, eff x rg) rg xs) ∧
    dir_outage d' = dir_outage d.
Proof.
  intros Hstep xs. induction xs as [| x xs IH]; intros evs d d' rg Hsv Hev Hout Hrg.
  - apply Forall2_nil_inv_r in Hev as ->. by inversion Hsv; subst.
  - apply Forall2_cons_inv_r in Hev as (ev & evs' & [rep ->] & Hev & ->).
    inversion Hsv as [| ? ? ? d1 ? ? Hs Hsv' |]; subst. simpl.
    destruct (Hstep x d rep d1 rg (Hout _) Hs Hrg) as [Hrg1 Hout1].
    destruct (IH evs' d1 d' (eff x rg) Hsv' Hev) as [Hrg' Hout']; [| done |].
    + intros r. rewrite Hout1. apply Hout.
    + split; [done |]. by rewrite Hout'.
Qed.

Lemma update_group_members_working g (w : World Directory) rg :
  (∀ r, dir_outage (remote w) r = false) →
  dir_groups (remote w) !! key_of g = Some rg →
  ∃ w', update_group_members dir_serve domain fuel g w = (Returns tt, w') ∧
        dir_groups (remote w') !! key_of g
          = Some (set_members rg (list_to_set (addresses g))) ∧
        dir_outage (remote w') = dir_outage (remote w).
Proof.
  intros Hout Hrg.
  assert (dir_serve (members_list (key_of g) None) (remote w)
            = (Ok (members_page rg),
               mkDirectory (<[key_of g := rg]> (dir_groups (remote w)))
                           (dir_outage (remote w)))) as Hs.
  { unfold dir_serve. rewrite Hout. simpl. unfold with_group. by rewrite Hrg. }
  set (w1 := mkWorld (mkDirectory (<[key_of g := rg]> (dir_groups (remote w)))
                                  (dir_outage (remote w)))
                     (trace w ++ [Executed (members_list (key_of g) None)
                                           (Ok (members_page rg))])).
  assert (list_members dir_serve domain fuel g w
            = (Returns (elements (rg_members rg)), w1)) as Hl.
  { unfold list_members. erewrite bind_returns by (apply execute_ok; exact Hs).
    rewrite while_nextPageToken_done by done. rewrite bind_ret.
    unfold members_page at 1. cbn [resp_members]. by rewrite fmap_member_resources. }
  destruct (reconcile_runs dir_serve (members_delete (key_of g))
              (λ x, members_insert (key_of g) x "MEMBER")
              (remove_list_of (elements (rg_members rg)) (addresses g))
              (insert_list_of (elements (rg_members rg)) (addresses g)) w1)
    as (w2 & w3 & evs1 & evs2 & Hrun & _ & Hev1 & Hev2 & Hsv1 & Hsv2).
  exists w3. split.
  { unfold update_group_members.
    erewrite (bind_returns _ _ w (Some (elements (rg_members rg)))).
    2:{ unfold try_except. by erewrite bind_returns by exact Hl. }
    exact Hrun. }
  destruct (served_each_effect (key_of g) _ _ (members_delete_effect (key_of g))
              _ _ _ _ rg Hsv1 Hev1) as [H1 Hout1]; [done | apply lookup_insert_eq |].
  rewrite foldl_members_delete in H1.
  assert (∀ r, dir_outage (remote w2) r = false) as Hworks
    by (intros r; rewrite Hout1; apply Hout).
  destruct (served_each_effect (key_of g) _ _ (members_insert_effect (key_of g) "MEMBER")
              _ _ _ _ _ Hsv2 Hev2 Hworks H1) as [H2 Hout2].
  rewrite foldl_members_insert in H2. split.
  - rewrite H2. f_equal. unfold set_members. simpl. f_equal. apply reconciled_set.
  - by rewrite Hout2, Hout1.
Qed.

Lemma update_group_aliases_working g (w : World Directory) rg :
  (∀ r, dir_outage (remote w) r = false) →
  dir_groups (remote w) !! key_of g = Some rg →
  ∃ w', update_group_aliases dir_serve domain g w = (Returns tt, w') ∧
        dir_groups (remote w') !! key_of g
          = Some (set_aliases rg (list_to_set (at_domain domain <$> aliases g))) ∧
        dir_outage (remote w') = dir_outage (remote w).
Proof.
  intros Hout Hrg.
  assert (dir_serve (aliases_list (key_of g)) (remote w)
            = (Ok (aliases_page (key_of g) rg),
               mkDirectory (<[key_of g := rg]> (dir_groups (remote w)))
                           (dir_outage (remote w)))) as Hs.
  { unfold dir_serve. rewrite Hout. simpl. unfold with_group. by rewrite Hrg. }
  set (w1 := mkWorld (mkDirectory (<[key_of g := rg]> (dir_groups (remote w)))
                                  (dir_outage (remote w)))
                     (trace w ++ [Executed (aliases_list (key_of g))
                                           (Ok (aliases_page (key_of g) rg))])).
  assert (list_aliases dir_serve domain g w
            = (Returns (elements (rg_aliases rg)), w1)) as Hl.
  { unfold list_aliases. erewrite bind_returns by (apply execute_ok; exact Hs).
    unfold aliases_page at 1. cbn [resp_aliases]. by rewrite fmap_alias_resources. }
  destruct (reconcile_runs dir_serve (aliases_delete (key_of g))
              (aliases_insert (key_of g))
              (remove_list_of (elements (rg_aliases rg)) (at_domain domain <$> aliases g))
              (insert_list_of (elements (rg_aliases rg)) (at_domain domain <$> aliases g))
              w1)
    as (w2 & w3 & evs1 & evs2 & Hrun & _ & Hev1 & Hev2 & Hsv1 & Hsv2).
  exists w3. split.
  { unfold update_group_aliases. by erewrite bind_returns by exact Hl. }
  destruct (served_each_effect (key_of g) _ _ (aliases_delete_effect (key_of g))
              _ _ _ _ rg Hsv1 Hev1) as [H1 Hout1]; [done | apply lookup_insert_eq |].
  rewrite foldl_aliases_delete in H1.
  assert (∀ r, dir_outage (remote w2) r = false) as Hworks
    by (intros r; rewrite Hout1; apply Hout).
  destruct (served_each_effect (key_of g) _ _ (aliases_insert_effect (key_of g))
              _ _ _ _ _ Hsv2 Hev2 Hworks H1) as [H2 Hout2].
  rewrite foldl_aliases_insert in H2. split.
  - rewrite H2. f_equal. unfold set_aliases. simpl. f_equal. apply reconciled_set.
  - by rewrite Hout2, Hout1.
Qed.

(** X12: on a directory whose transport works, [update_group] of a group that
    is there returns normally and leaves the group with exactly the wanted
    aliases (qualified with the domain) and exactly the wanted addresses as
    members, whatever it had before and even when the wanted lists repeat an
    entry; the name and the description the directory holds stay as they
    were. *)
Theorem update_group_reconciles old_name g (w : World Directory) rg :
  (∀ r, dir_outage (remote w) r = false) →
  dir_groups (remote w) !! key_of g = Some rg →
  ∃ w', update_group dir_serve domain fuel old_name g w = (Returns tt, w') ∧
        dir_groups (remote w') !! key_of g
          = Some (mkRemoteGroup (rg_name rg) (rg_description rg)
                                (list_to_set (addresses g))
                                (list_to_set (at_domain domain <$> aliases g))).
Proof.
  intros Hout Hrg.
  destruct (update_group_aliases_working g w rg Hout Hrg) as (w1 & Hrun1 & Hrg1 & Hout1).
  assert (∀ r, dir_outage (remote w1) r = false) as Hworks
    by (intros r; rewrite Hout1; apply Hout).
  destruct (update_group_members_working g w1 _ Hworks Hrg1) as (w2 & Hrun2 & Hrg2 & _).
  exists w2. split; [| exact Hrg2].
  unfold update_group. by erewrite bind_returns by exact Hrun1.
Qed.

(** X13: on a directory whose transport works, [create_group] of a group that
    is not there returns normally and leaves a group with the wanted name and
    description, exactly the wanted addresses as members, and no alias: the
    wanted aliases are not set by the creation. *)
Theorem create_group_creates g (w : World Directory) :
  (∀ r, dir_outage (remote w) r = false) →
  dir_groups (remote w) !! key_of g = None →
  ∃ w', create_group dir_serve domain fuel g w = (Returns tt, w') ∧
        dir_groups (remote w') !! key_of g
          = Some (mkRemoteGroup (name g) (description g)
                                (list_to_set (addresses g)) ∅).
Proof.
  intros Hout Hnone.
  assert (dir_serve (groups_insert (group_body domain g)) (remote w)
            = (Ok empty_response,
               mkDirectory (<[key_of g := mkRemoteGroup (name g) (description g) ∅ ∅]>
                              (dir_groups (remote w)))
                           (dir_outage (remote w)))) as Hs.
  { unfold dir_serve. rewrite Hout. simpl. by rewrite Hnone. }
  unfold create_group.
  erewrite bind_returns by (apply execute_ok; exact Hs).
  erewrite bind_returns by reflexivity.
  match goal with |- ∃ w', ?m ?w1 = _ ∧ _ =>
    destruct (update_group_members_working g w1
                (mkRemoteGroup (name g) (description g) ∅ ∅))
      as (w2 & Hrun & Hrg & _)
  end.
  - intros r. apply Hout.
  - apply lookup_insert_eq.
  - exists w2. split; [exact Hrun | exact Hrg].
Qed.

End Convergence.

(** ** The added properties on concrete runs *)

(** The insertion of C fails. *)
Lemma sync_raises_only_on_unguarded_calls_witness :
  let w := mkWorld (mkDirectory (dir_groups directory_AB) insert_outage) [] in
  let run := sync_mailinglists dir_serve "example.org" [] 5 (Some [group_C; group_B]) w in
  ∃ tr g, g ∈ [group_C; group_B] ∧
    (trace run.2 = tr ++ [Executed (groups_insert (group_body "example.org" g))
                                   (Failed (mkHttpError 503))] ∨
     trace run.2 = tr ++ [Executed (aliases_list (at_domain "example.org" (name g)))
                                   (Failed (mkHttpError 503))]).
Proof.
  intros w run.
  apply (sync_raises_only_on_unguarded_calls dir_serve "example.org" [] 5
           (Some [group_C; group_B]) w (mkHttpError 503) run.2).
  vm_compute; reflexivity.
Defined.

(** One listed alias that is not wanted, whose deletion fails, and one wanted
    alias that is not listed. *)
Lemma alias_reconciliation_trace_witness :
  let listing := page ["old@example.org"] None in
  let w := mkWorld [Ok listing; Failed (mkHttpError 500); Ok empty_response] [] in
  ∃ w' deletions insertions,
    update_group_aliases script_serve "example.org" group_C w = (Returns tt, w') ∧
    trace w' = [] ++ [Executed (aliases_list "C@example.org") (Ok listing)]
                  ++ deletions ++ insertions ∧
    Forall2 (λ ev x, ∃ rep, ev = Executed (aliases_delete "C@example.org" x) rep)
            deletions ["old@example.org"] ∧
    Forall2 (λ ev x, ∃ rep, ev = Executed (aliases_insert "C@example.org" x) rep)
            insertions ["c-alias@example.org"].
Proof.
  intros listing w.
  apply (alias_reconciliation_trace script_serve "example.org" group_C w listing
           [Failed (mkHttpError 500); Ok empty_response]).
  reflexivity.
Defined.

(** Two listed members that are not wanted and one wanted address that is
    not listed. *)
Lemma member_reconciliation_trace_witness :
  let w := mkWorld [Ok (page ["ann@example.org"; "zed@example.org"] None)] [] in
  ∃ w' deletions insertions,
    update_group_members script_serve "example.org" 5 group_C w = (Returns tt, w') ∧
    trace w' = trace (list_members script_serve "example.org" 5 group_C w).2
                 ++ deletions ++ insertions ∧
    Forall2 (λ ev x, ∃ rep, ev = Executed (members_delete "C@example.org" x) rep)
            deletions ["ann@example.org"; "zed@example.org"] ∧
    Forall2 (λ ev x, ∃ rep,
               ev = Executed (members_insert "C@example.org" x "MEMBER") rep)
            insertions ["bob@example.org"].
Proof.
  intros w.
  apply (member_reconciliation_trace script_serve "example.org" 5 group_C w
           ["ann@example.org"; "zed@example.org"]).
  vm_compute; reflexivity.
Defined.

(** Group C as wanted: its alias and its member are listed. *)
Lemma update_of_group_in_sync_only_lists_witness :
  let aliases_reply := page ["c-alias@example.org"] None in
  let members_reply := page ["bob@example.org"] None in
  let w := mkWorld [Ok aliases_reply; Ok members_reply] [] in
  update_group script_serve "example.org" 5 "C" group_C w
    = (Returns tt,
       mkWorld [] [Executed (aliases_list "C@example.org") (Ok aliases_reply);
                   Executed (members_list "C@example.org" None) (Ok members_reply)]).
Proof.
  intros aliases_reply members_reply w.
  apply (update_of_group_in_sync_only_lists script_serve "example.org" 5 "C" group_C w
           aliases_reply [Ok members_reply] ["bob@example.org"]).
  - reflexivity.
  - intros x. reflexivity.
  - vm_compute; reflexivity.
  - intros x. reflexivity.
Defined.

(** Two pages of groups, and the same two pages as members. *)
Lemma listings_request_page_after_page_witness :
  let first := page ["A"; "B"] (Some "p2") in
  let second := page ["C"] None in
  let w := mkWorld [Ok first; Ok second] [] in
  trace (list_groups script_serve "example.org" 5 w).2
    = [Executed (groups_list "example.org" None) (Ok first);
       Executed (groups_list "example.org" (Some "p2")) (Ok second)] ∧
  trace (list_members script_serve "example.org" 5 group_B w).2
    = [Executed (members_list "B@example.org" None) (Ok first);
       Executed (members_list "B@example.org" (Some "p2")) (Ok second)].
Proof.
  intros first second w.
  destruct (listings_request_page_after_page script_serve "example.org" 5 group_B w
              [first; second] []) as [Hgroups Hmembers]; [simpl; lia |].
  split.
  - apply Hgroups. eapply pages_more; [reflexivity | reflexivity |].
    eapply pages_last; reflexivity.
  - apply Hmembers. eapply pages_more; [reflexivity | reflexivity |].
    eapply pages_last; reflexivity.
Defined.

(** A pass over B, which is updated, and C, which is created. *)
Lemma completed_pass_goes_group_by_group_witness :
  let w := mkWorld directory_AB [] in
  ∃ segs,
    trace (sync_mailinglists dir_serve "example.org" [] 5 (Some [group_B; group_C]) w).2
      = trace (list_groups dir_serve "example.org" 5 w).2 ++ concat segs ∧
    Forall2 (λ seg g, seg ≠ [] ∧
               Forall (only_executes
                         (within_group (at_domain "example.org" (name g)))) seg)
            segs [group_B; group_C].
Proof.
  intros w.
  apply (completed_pass_goes_group_by_group dir_serve "example.org" [] 5
           (Some [group_B; group_C]) w ["A"; "B"]).
  - vm_compute; reflexivity.
  - vm_compute; reflexivity.
Defined.

(** A pass over B and C on the directory that has A and B. *)
Lemma successful_pass_reaches_wanted_members_witness :
  let run := sync_mailinglists dir_serve "example.org" [] 5 (Some [group_B; group_C])
               (mkWorld directory_AB []) in
  run.1 = Returns tt ∧
  ∀ g, g ∈ [group_B; group_C] →
    ∃ rg, dir_groups (remote run.2) !! at_domain "example.org" (name g) = Some rg ∧
          rg_members rg = list_to_set (addresses g) ∧
          (is_Some (dir_groups directory_AB !! at_domain "example.org" (name g)) →
           rg_aliases rg = list_to_set (at_domain "example.org" <$> aliases g)) ∧
          (dir_groups directory_AB !! at_domain "example.org" (name g) = None →
           rg_aliases rg = ∅ ∧ rg_name rg = name g).
Proof.
  intros run.
  apply (successful_pass_reaches_wanted_members "example.org" 5 []
           (Some [group_B; group_C]) directory_AB run.1 run.2).
  - apply (bool_decide_unpack _). vm_compute. exact I.
  - apply surjective_pairing.
  - vm_compute. repeat constructor.
Defined.

(** Three passes over B and C on the directory that has A and B. *)
Lemma third_pass_is_silent_witness :
  let lists := Some [group_B; group_C] in
  let pass1 := sync_mailinglists dir_serve "example.org" [] 5 lists
                 (mkWorld directory_AB []) in
  let pass2 := sync_mailinglists dir_serve "example.org" [] 5 lists
                 (mkWorld (remote pass1.2) []) in
  let pass3 := sync_mailinglists dir_serve "example.org" [] 5 lists
                 (mkWorld (remote pass2.2) []) in
  Forall silent (trace pass3.2).
Proof.
  intros lists pass1 pass2 pass3.
  apply (third_pass_is_silent "example.org" 5 [] lists directory_AB
           pass1.1 pass1.2 pass2.1 pass2.2 pass3.1 pass3.2).
  - apply (bool_decide_unpack _). vm_compute. exact I.
  - apply surjective_pairing.
  - vm_compute. repeat constructor.
  - apply surjective_pairing.
  - vm_compute. repeat constructor.
  - apply surjective_pairing.
Defined.

(** Group B has the member ann and is wanted with the member bob. *)
Lemma update_group_reconciles_witness :
  ∃ w', update_group dir_serve "example.org" 5 "B" group_B_bob (mkWorld directory_AB [])
          = (Returns tt, w') ∧
        dir_groups (remote w') !! "B@example.org"
          = Some (mkRemoteGroup "B" "old B" (list_to_set ["bob@example.org"])
                                (list_to_set [])).
Proof.
  apply (update_group_reconciles "example.org" 5 "B" group_B_bob
           (mkWorld directory_AB []) (mkRemoteGroup "B" "old B" {["ann@example.org"]} ∅)).
  - intros r. reflexivity.
  - vm_compute; reflexivity.
Defined.

(** Group C is not in the directory. *)
Lemma create_group_creates_witness :
  ∃ w', create_group dir_serve "example.org" 5 group_C (mkWorld directory_AB [])
          = (Returns tt, w') ∧
        dir_groups (remote w') !! "C@example.org"
          = Some (mkRemoteGroup "C" "list C" (list_to_set ["bob@example.org"]) ∅).
Proof.
  apply (create_group_creates "example.org" 5 group_C (mkWorld directory_AB [])).
  - intros r. reflexivity.
  - vm_compute; reflexivity.
Defined.
